(** * Nawatech FAQ chatbot: the retrieval-and-answer pipeline

    A shallow embedding of the Python sources under [app/] and the
    properties of the specification that concern them.

    Conventions of the embedding
    - a Python [str] is a [string]; the character classes used by
      [str.split], [str.strip], [str.lower] and the regular expressions
      are the ASCII ones, so a [string] stands for an ASCII text;
    - a Python [float] is an exact rational ([Q]): sums, products and
      quotients are computed without rounding error, [round(x, 2)] is
      rounding to the nearest hundredth, ties to even;
    - the heuristic evaluation is embedded a second time as the
      interpreter computes it ([HeuristicEvaluator]): there a [float] is
      an IEEE 754 binary64 value and a [str] is a sequence of Unicode
      code points;
    - a Python [dict] with string keys is a [gmap string _];
    - code that performs network calls runs in a state-and-exception
      monad whose state is the list of HTTP requests attempted so far;
    - an exception is a value [Exn kind message]; only exceptions derived
      from [Exception] are modelled. *)

From Stdlib Require Import Ascii String QArith Qminmax Qround Qabs Lqa SpecFloat.
From stdpp Require Import base list strings pretty gmap.

Local Open Scope string_scope.
Local Open Scope list_scope.
Local Open Scope nat_scope.

(** ** Python values and exceptions *)

Module Py.

Definition float := Q.

Record exn := Exn { exn_kind : string; exn_msg : string }.

(** [str(e)] *)
Definition str_exn (e : exn) : string := exn_msg e.

(** A fragment of Python's object universe, enough for the dictionaries
    that travel between the answer generator and its collaborators. *)
#[warnings="-register-all"]
Inductive pyval :=
| PNone
| PStr (s : string)
| PFloat (x : float)
| PList (l : list pyval)
| PDict (d : gmap string pyval).

(** Outcome of a call that may raise. *)
Definition result (A : Type) : Type := exn + A.

Definition result_bind {A B} (k : A → result B) (r : result A) : result B :=
  match r with
  | inl e => inl e
  | inr a => k a
  end.

(** The line feed character, ["\n"] in Python. *)
Definition nl : string := String (ascii_of_nat 10) EmptyString.

(** Truth value of an object, as [not x] and [x or y] test it. *)
Definition truthy (v : pyval) : bool :=
  match v with
  | PNone => false
  | PStr s => negb (bool_decide (s = EmptyString))
  | PFloat x => negb (Qeq_bool x 0)
  | PList l => negb (bool_decide (length l = 0))
  | PDict d => negb (bool_decide (size d = 0))
  end.

(** [isinstance(v, str)] *)
Definition isinstance_str (v : pyval) : bool :=
  match v with
  | PStr _ => true
  | _ => false
  end.

(** Python's [int] to [float] conversion. *)
Definition of_int (n : nat) : float := inject_Z (Z.of_nat n).

(** [round(x)]: nearest integer, ties to even. *)
Definition round_half_even (x : float) : Z :=
  let f := Qfloor x in
  match (x - inject_Z f ?= 1 # 2)%Q with
  | Lt => f
  | Gt => (f + 1)%Z
  | Eq => if Z.even f then f else (f + 1)%Z
  end.

(** [round(x, 2)] *)
Definition round2 (x : float) : float :=
  (inject_Z (round_half_even (x * 100)) / 100)%Q.

(** [range(start, stop, step)] for [step > 0]. *)
Definition range (start stop step : nat) : list nat :=
  (λ k, start + k * step) <$> seq 0 ((stop - start + (step - 1)) / step).

(** [l[i:j]] for [0 <= i]. *)
Definition slice {A} (l : list A) (i j : nat) : list A :=
  take (j - i) (drop i l).

(** [l[-k:]] for a literal [k >= 0]; Python reads [-0] as [0], so
    [l[-0:]] is the whole list. *)
Definition last_slice {A} (l : list A) (k : nat) : list A :=
  match k with
  | O => l
  | _ => drop (length l - k) l
  end.

End Py.

(** ** Python string operations (ASCII) *)

Module PyStr.

Definition code (c : ascii) : nat := nat_of_ascii c.

(** [str.isspace] on one character: TAB..CR, FS..US and SPACE. *)
Definition isspace (c : ascii) : bool :=
  let n := code c in
  ((9 <=? n) && (n <=? 13)) || ((28 <=? n) && (n <=? 32)).

Definition isdigit (c : ascii) : bool :=
  let n := code c in (48 <=? n) && (n <=? 57).

Definition isupper (c : ascii) : bool :=
  let n := code c in (65 <=? n) && (n <=? 90).

Definition islower (c : ascii) : bool :=
  let n := code c in (97 <=? n) && (n <=? 122).

(** The class [\w]. *)
Definition isword (c : ascii) : bool :=
  isdigit c || isupper c || islower c || (code c =? 95).

Definition lower_char (c : ascii) : ascii :=
  if isupper c then ascii_of_nat (code c + 32) else c.

Definition upper_char (c : ascii) : ascii :=
  if islower c then ascii_of_nat (code c - 32) else c.

Fixpoint map_chars (f : ascii → ascii) (s : string) : string :=
  match s with
  | EmptyString => EmptyString
  | String c s' => String (f c) (map_chars f s')
  end.

Fixpoint filter_chars (p : ascii → bool) (s : string) : string :=
  match s with
  | EmptyString => EmptyString
  | String c s' => if p c then String c (filter_chars p s') else filter_chars p s'
  end.

(** [s.lower()] *)
Definition lower : string → string := map_chars lower_char.

(** [s.capitalize()] *)
Definition capitalize (s : string) : string :=
  match s with
  | EmptyString => EmptyString
  | String c s' => String (upper_char c) (lower s')
  end.

Definition snoc (s : string) (c : ascii) : string := s +:+ String c EmptyString.

(** [s.split()]: maximal runs of non-space characters. [cur] is the
    run being read. *)
Fixpoint split_ws_go (cur : string) (s : string) : list string :=
  match s with
  | EmptyString => if decide (cur = EmptyString) then [] else [cur]
  | String c s' =>
      if isspace c
      then (if decide (cur = EmptyString) then split_ws_go EmptyString s'
            else cur :: split_ws_go EmptyString s')
      else split_ws_go (snoc cur c) s'
  end.

Definition split_ws : string → list string := split_ws_go EmptyString.

(** [s.split(sep)] for a non-empty [sep]: cut at the leftmost
    occurrences of [sep], which do not overlap. [cur] is the piece being
    read; [skip] counts the characters of an occurrence still to pass. *)
Fixpoint split_go (sep : string) (s : string) (cur : string) (skip : nat) : list string :=
  match s with
  | EmptyString => [cur]
  | String c s' =>
      match skip with
      | S k => split_go sep s' cur k
      | O =>
          if String.prefix sep s
          then cur :: split_go sep s' EmptyString (String.length sep - 1)
          else split_go sep s' (snoc cur c) 0
      end
  end.

Definition split (sep s : string) : list string := split_go sep s EmptyString 0.

Fixpoint lstrip (s : string) : string :=
  match s with
  | EmptyString => EmptyString
  | String c s' => if isspace c then lstrip s' else s
  end.

Definition rstrip (s : string) : string := String.rev (lstrip (String.rev s)).

(** [s.strip()] *)
Definition strip (s : string) : string := rstrip (lstrip s).

(** [sub in s] *)
Fixpoint contains (sub s : string) : bool :=
  String.prefix sub s ||
  match s with
  | EmptyString => false
  | String _ s' => contains sub s'
  end.

(** [s[len(p):]] when [s.startswith(p)]. *)
Fixpoint strip_prefix (p s : string) : option string :=
  match p, s with
  | EmptyString, _ => Some s
  | String a p', String b s' => if decide (a = b) then strip_prefix p' s' else None
  | String _ _, EmptyString => None
  end.

(** The longest prefix of characters in class [p], and the rest: what a
    greedy [p*] consumes. *)
Fixpoint span (p : ascii → bool) (s : string) : string * string :=
  match s with
  | EmptyString => (EmptyString, EmptyString)
  | String c s' =>
      if p c then let '(a, b) := span p s' in (String c a, b)
      else (EmptyString, s)
  end.

(** [sep.join(l)] *)
Fixpoint join (sep : string) (l : list string) : string :=
  match l with
  | [] => EmptyString
  | [x] => x
  | x :: l' => x +:+ sep +:+ join sep l'
  end.

Fixpoint digits_value (s : string) (acc : Z) : Z :=
  match s with
  | EmptyString => acc
  | String c s' => digits_value s' (10 * acc + (Z.of_nat (code c) - 48))
  end.

(** [float(i + "." + f)] for digit strings [i] and [f]. *)
Definition float_of_decimal (i f : string) : Q :=
  inject_Z (digits_value (i +:+ f) 0) / inject_Z (10 ^ Z.of_nat (String.length f)).

(** [l[i]] for a list, negative indices counting from the end. *)
Definition index {A} (l : list A) (i : Z) : Py.result A :=
  let j := if (i <? 0)%Z then (Z.of_nat (length l) + i)%Z else i in
  if (j <? 0)%Z then inl (Py.Exn "IndexError" "list index out of range")
  else match l !! Z.to_nat j with
       | Some x => inr x
       | None => inl (Py.Exn "IndexError" "list index out of range")
       end.

End PyStr.

(** ** Effects: a reader-state-exception monad

    [Env] is the outside world the code talks to, [Ev] the kind of call it
    makes. The state is the list of calls attempted so far, oldest first,
    so that a theorem can say which calls a function made, and the
    outside world may answer the same call differently at different
    times. *)

Module Eff.
Import Py.

Definition M (Env Ev A : Type) : Type := Env → list Ev → result A * list Ev.

Section ops.
Context {Env Ev : Type}.

Definition ret {A} (a : A) : M Env Ev A := λ _ w, (inr a, w).

Definition bind {A B} (m : M Env Ev A) (k : A → M Env Ev B) : M Env Ev B :=
  λ env w, match m env w with
           | (inl e, w') => (inl e, w')
           | (inr a, w') => k a env w'
           end.

Definition raise {A} (e : exn) : M Env Ev A := λ _ w, (inl e, w).

(** The environment itself. *)
Definition ask : M Env Ev Env := λ env w, (inr env, w).

(** Lift a pure computation that may raise. *)
Definition lift {A} (r : result A) : M Env Ev A := λ _ w, (r, w).

(** [try: m  except Exception as e: h e] *)
Definition try_except {A} (m : M Env Ev A) (h : exn → M Env Ev A) : M Env Ev A :=
  λ env w, match m env w with
           | (inl e, w') => h e env w'
           | (inr a, w') => (inr a, w')
           end.

(** One call to the outside world: it is recorded, and answered by
    the environment, which is told how many calls came before. *)
Definition perform {A} (ev : Ev) (answer : Env → nat → result A) : M Env Ev A :=
  λ env w, (answer env (length w), w ++ [ev]).

(** [for x in xs: acc = body x acc] *)
Fixpoint for_each {A S} (xs : list A) (body : A → S → M Env Ev S) (acc : S)
    : M Env Ev S :=
  match xs with
  | [] => ret acc
  | x :: xs' => bind (body x acc) (for_each xs' body)
  end.
End ops.

End Eff.

#[export] Instance M_ret {Env Ev} : MRet (Eff.M Env Ev) := @Eff.ret Env Ev.
#[export] Instance M_bind {Env Ev} : MBind (Eff.M Env Ev) := λ A B k m, Eff.bind m k.
#[export] Instance float_inhabited : Inhabited Py.float := populate (0 : Q).
#[export] Instance result_mbind : MBind Py.result := @Py.result_bind.
#[export] Instance result_mret : MRet Py.result := λ A a, inr a.

(** ** The embedding endpoint *)

Module Net.
Import Py Eff.

(** JSON body of [POST {base_url}/embeddings]. *)
Record payload := Payload {
  p_input : list string;
  p_model : string;
  p_encoding_format : string;
  p_dimensions : option Z
}.

Record request := Request {
  req_url : string;
  req_authorization : string;
  req_json : payload
}.

(** [response.json()]: [{data: [{embedding: [...]}, ...]}]. *)
Record item := Item { embedding : list float }.
Record response := Response { data : list item }.

(** What one POST yields: the decoded body, or the exception that
    [_make_embedding_request] raises (transport failure, HTTP error
    status, or a body that is not of the shape above). *)
Inductive reply :=
| Failed (e : exn)
| Replied (r : response).

(** The remote service: its reply may depend on how many requests were
    attempted before and on the request itself. *)
Definition server : Type := nat → request → reply.

Abbreviation M := (Eff.M server request).

(** [requests.post(url, headers=..., json=payload)] followed by
    [raise_for_status()] and [json()]. *)
Definition post (r : request) : M response :=
  perform r (λ srv n, match srv n r with
                      | Failed e => inl e
                      | Replied b => inr b
                      end).

End Net.

(** ** app/models/custom_embeddings.py *)

Module CustomLocalEmbeddings.
Import Py Eff Net.

Record t := Make {
  base_url : string;
  api_key : string;
  model : string;
  dimensions : option Z;
  encoding_format : string
}.

(** The constructor's defaults: [model="ebbge-v2"], [dimensions=None],
    [encoding_format="float"]. *)
Definition init (base_url api_key model : string) : t :=
  Make base_url api_key model None "float".

Definition embeddings_url (self : t) : string := base_url self +:+ "/embeddings".
Definition authorization (self : t) : string := "Bearer " +:+ api_key self.

Definition _create_embedding_request (self : t) (texts : list string) : payload :=
  Payload texts (model self) (encoding_format self) (dimensions self).

Definition _make_embedding_request (self : t) (p : payload) : M response :=
  post (Request (embeddings_url self) (authorization self) p).

(** [self.dimensions or 384] *)
Definition fallback_dimensions (self : t) : Z :=
  match dimensions self with
  | None => 384
  | Some d => if (d =? 0)%Z then 384 else d
  end%Z.

(** [[0.0] * (self.dimensions or 384)] *)
Definition zero_vector (self : t) : list float :=
  replicate (Z.to_nat (fallback_dimensions self)) (0 : Q).

Definition batch_size : nat := 3.

(** One iteration of the loop of [embed_documents]. *)
Definition embed_batch (self : t) (texts : list string)
    (i : nat) (all_embeddings : list (list float)) : M (list (list float)) :=
  let batch := slice texts i (i + batch_size) in
  try_except
    (let payload := _create_embedding_request self batch in
     response ← _make_embedding_request self payload;
     let batch_embeddings := embedding <$> data response in
     ret (all_embeddings ++ batch_embeddings))
    (λ e, ret (all_embeddings ++ replicate (length batch) (zero_vector self))).

Definition embed_documents (self : t) (texts : list string) : M (list (list float)) :=
  match texts with
  | [] => ret []
  | _ => for_each (range 0 (length texts) batch_size) (embed_batch self texts) []
  end.

Definition embed_query (self : t) (text : string) : M (list float) :=
  let payload := _create_embedding_request self [text] in
  response ← _make_embedding_request self payload ;
  match data response with
  | [] => raise (Exn "IndexError" "list index out of range")
  | it :: _ => ret (embedding it)
  end.

End CustomLocalEmbeddings.

(** ** app/database/vector_store.py *)

(** The capability set of langchain's [Embeddings] base class. *)
Class Embeddings (E : Type) := {
  embed_documents : E → list string → Net.M (list (list Py.float));
  embed_query : E → string → Net.M (list Py.float)
}.

#[export] Instance CustomLocalEmbeddings_Embeddings : Embeddings CustomLocalEmbeddings.t := {
  embed_documents := CustomLocalEmbeddings.embed_documents;
  embed_query := CustomLocalEmbeddings.embed_query
}.

Module VectorStore.
Import Py Eff Net.

(** langchain's [InMemoryVectorStore], reduced to what [initialize]
    uses: the stored (text, vector) pairs. [add_texts] embeds all texts
    with the provider's [embed_documents] and then stores them paired
    positionally. *)
Record InMemoryVectorStore := { store : list (string * list float) }.

Definition add_texts `{Embeddings E} (embedding : E)
    (vs : InMemoryVectorStore) (texts : list string) : M InMemoryVectorStore :=
  vectors ← embed_documents embedding texts ;
  ret {| store := store vs ++ zip texts vectors |}.

Record t (E : Type) := Make {
  embeddings : E;
  vectorstore : option InMemoryVectorStore
}.
Arguments Make {E} _ _.
Arguments embeddings {E} _.
Arguments vectorstore {E} _.

(** [__init__] leaves [self.vectorstore = None]. *)
Definition init {E} (embeddings : E) : t E := Make embeddings None.

(** [initialize] returns its boolean together with the object's state
    after the call. The outer [try]/[except Exception] makes it
    exception-free. *)
Definition initialize `{Embeddings E} (self : t E) (documents : list string)
    : M (bool * t E) :=
  try_except
    (probe ← try_except
               (test_embedding ← embed_query (embeddings self) "Test embedding" ;
                ret (Some test_embedding))
               (λ e, ret None) ;
     match probe with
     | None => ret (false, self)
     | Some test_embedding =>
         let fresh := {| store := [] |} in
         try_except
           (vs ← add_texts (embeddings self) fresh documents ;
            ret (true, Make (embeddings self) (Some vs)))
           (λ e, ret (false, Make (embeddings self) (Some fresh)))
     end)
    (λ e, ret (false, self)).

(** Number of documents the index exposes. *)
Definition indexed_documents {E} (self : t E) : nat :=
  match vectorstore self with
  | None => 0
  | Some vs => length (store vs)
  end.

(** [get_retriever] answers [None] exactly when the store is unset. *)
Definition has_retriever {E} (self : t E) : bool :=
  match vectorstore self with
  | None => false
  | Some _ => true
  end.

End VectorStore.

(** ** app/models/evaluator_agent.py *)

Module ResponseEvaluator.
Import Py PyStr.

Definition stopwords : list string := [
  "yang"; "dan"; "di"; "ke"; "dari"; "dengan"; "untuk"; "pada"; "adalah"; "ini"; "itu";
  "the"; "a"; "an"; "and"; "or"; "but"; "is"; "are"; "was"; "were"; "be"; "been"; "being";
  "in"; "on"; "at"; "to"; "for"; "with"; "by"; "about"; "against"; "between"; "into"; "through";
  "this"; "that"; "these"; "those"; "of"; "from" ].

Definition _extract_keywords (text : string) : list string :=
  let text := lower text in
  let text := filter_chars (λ c, isword c || isspace c) text in
  let words := split_ws text in
  filter (λ word, (word ∉ stopwords) ∧ 2 < String.length word) words.

(** The dictionary every evaluation method returns. [error] and
    [raw_evaluation] are keys that only some paths add. *)
Record evaluation := Evaluation {
  scores : gmap string float;
  reasons : gmap string (list string);
  method : string;
  error : option string;
  raw_evaluation : option string
}.

(** [d[k].append(x)] *)
Definition append_to (k : string) (x : string) (d : gmap string (list string))
    : gmap string (list string) :=
  alter (λ l, l ++ [x]) k d.

(** [x < y] on floats. *)
Definition ltb (x y : float) : bool := negb (Qle_bool y x).

Definition weights : list (string * float) :=
  [ ("relevance", 3 # 10); ("completeness", 2 # 10);
    ("clarity", 2 # 10); ("accuracy", 3 # 10) ]%Q.

(** [sum(scores[metric] * weights[metric] for metric in weights)] *)
Definition weighted_sum (scores : gmap string float) : float :=
  foldl (λ acc kw, acc + (scores !!! kw.1) * kw.2)%Q (0 : Q) weights.

(** The heuristic evaluation in exact arithmetic on ASCII text.
    [HeuristicEvaluator._evaluate_heuristic] below is the same function
    in binary64 arithmetic on Unicode text. *)
Definition _evaluate_heuristic (query response context : string) : evaluation :=
  let scores : gmap string float :=
    {[ "relevance" := 0 : Q; "completeness" := 0 : Q; "clarity" := 0 : Q;
       "accuracy" := 0 : Q; "overall" := 0 : Q ]} in
  let reasons : gmap string (list string) :=
    {[ "relevance" := []; "completeness" := []; "clarity" := []; "accuracy" := [] ]} in
  (* 1. Relevance *)
  let query_terms : gset string := list_to_set (_extract_keywords query) in
  let response_terms : gset string := list_to_set (_extract_keywords response) in
  let common_terms := query_terms ∩ response_terms in
  let relevance_score := (of_int (size common_terms) / of_int (size query_terms `max` 1))%Q in
  let scores := <[ "relevance" := Qmin (relevance_score * 5) 5 ]> scores in
  let reasons :=
    if ltb (scores !!! "relevance") (25 # 10)
    then append_to "relevance" "Response doesn't contain many key terms from the query" reasons
    else append_to "relevance" "Response contains key terms from the query" reasons in
  (* 2. Completeness *)
  let word_count := length (split_ws response) in
  let '(scores, reasons) :=
    if word_count <? 10
    then (<[ "completeness" := 1 : Q ]> scores,
          append_to "completeness" "Response is too short" reasons)
    else if word_count <? 30
    then (<[ "completeness" := 3 : Q ]> scores,
          append_to "completeness" "Response is of medium length" reasons)
    else (<[ "completeness" := 5 : Q ]> scores,
          append_to "completeness" "Response has good length" reasons) in
  (* 3. Clarity *)
  let sentences := split "." response in
  let avg_words_per_sentence := (of_int word_count / of_int (length sentences `max` 1))%Q in
  let '(scores, reasons) :=
    if ltb (25 : Q) avg_words_per_sentence
    then (<[ "clarity" := 2 : Q ]> scores,
          append_to "clarity" "Sentences are too long" reasons)
    else if ltb (15 : Q) avg_words_per_sentence
    then (<[ "clarity" := 35 # 10 ]> scores,
          append_to "clarity" "Sentences are of moderate length" reasons)
    else (<[ "clarity" := 5 : Q ]> scores,
          append_to "clarity" "Sentences are concise" reasons) in
  (* 4. Accuracy *)
  let context_terms : gset string := list_to_set (_extract_keywords context) in
  let response_unique_terms := response_terms ∖ query_terms in
  let context_overlap := response_unique_terms ∩ context_terms in
  let accuracy_score :=
    (of_int (size context_overlap) / of_int (size response_unique_terms `max` 1))%Q in
  let scores := <[ "accuracy" := Qmin (accuracy_score * 5) 5 ]> scores in
  let reasons :=
    if ltb (scores !!! "accuracy") (25 # 10)
    then append_to "accuracy" "Response contains information not in the context" reasons
    else append_to "accuracy" "Response information is present in the context" reasons in
  (* overall *)
  let overall_score := weighted_sum scores in
  let scores := <[ "overall" := round2 overall_score ]> scores in
  Evaluation scores reasons "heuristic" None None.

(** Groups of a successful [re.match] of the score pattern: one of the
    labels Relevance, Completeness, Clarity, Accuracy, Overall; a colon;
    any white space; then the number, which is one or more digits, an
    optional point and any further digits. The number is kept as its
    integer digits and the digits after the point. *)
Record score_match := ScoreMatch {
  sm_metric : string;
  sm_int : string;
  sm_frac : string
}.

Definition match_label (label line : string) : option score_match :=
  rest ← strip_prefix (label +:+ ":") line;
  let '(_, rest) := span isspace rest in
  let '(i, rest) := span isdigit rest in
  if decide (i = EmptyString) then None
  else match rest with
       | String "." rest' => let '(f, _) := span isdigit rest' in Some (ScoreMatch label i f)
       | _ => Some (ScoreMatch label i EmptyString)
       end.

Fixpoint first_match (labels : list string) (line : string) : option score_match :=
  match labels with
  | [] => None
  | label :: labels' =>
      match match_label label line with
      | Some m => Some m
      | None => first_match labels' line
      end
  end.

Definition match_score : string → option score_match :=
  first_match ["Relevance"; "Completeness"; "Clarity"; "Accuracy"; "Overall"].

(** Group 1 of a successful [re.match] of the reason pattern: the
    text [Reason:], any white space, then the rest of the line. *)
Definition match_reason (line : string) : option string :=
  rest ← strip_prefix "Reason:" line;
  Some (span isspace rest).2.

(** The loop that finds the metric a reason belongs to. The indexing
    expression is evaluated afresh in every iteration. *)
Fixpoint attach_reason (metrics : list string) (eval_text line reason : string)
    (reasons : gmap string (list string)) : result (gmap string (list string)) :=
  match metrics with
  | [] => inr reasons
  | metric :: metrics' =>
      before ← index (split line eval_text) 0;
      segment ← index (split "Reason:" before) (-2);
      if contains (capitalize metric) segment
      then inr (<[ metric := [reason] ]> reasons)
      else attach_reason metrics' eval_text line reason reasons
  end.

(** The body of the loop over the lines of [eval_text]. *)
Definition parse_line (eval_text : string) (line : string)
    (st : gmap string float * gmap string (list string))
    : result (gmap string float * gmap string (list string)) :=
  let '(scores, reasons) := st in
  let line := strip line in
  if decide (line = EmptyString) then inr st
  else match match_score line with
       | Some m =>
           inr (<[ lower (sm_metric m) := float_of_decimal (sm_int m) (sm_frac m) ]> scores,
                reasons)
       | None =>
           match match_reason line with
           | Some reason =>
               reasons' ← attach_reason ["relevance"; "completeness"; "clarity"; "accuracy"]
                            eval_text line reason reasons;
               inr (scores, reasons')
           | None => inr st
           end
       end.

Fixpoint parse_lines (eval_text : string) (lines : list string)
    (st : gmap string float * gmap string (list string))
    : result (gmap string float * gmap string (list string)) :=
  match lines with
  | [] => inr st
  | line :: lines' => st' ← parse_line eval_text line st; parse_lines eval_text lines' st'
  end.

Definition _parse_evaluation (eval_text : string)
    : result (gmap string float * gmap string (list string)) :=
  parse_lines eval_text (split nl eval_text) (∅, ∅).

(** [eval_llm] stands for [self.eval_llm.invoke(eval_prompt).content]:
    the grading prompt is built from the three texts. *)
Definition _evaluate_with_model (eval_llm : string → string → string → result string)
    (query response context : string) : evaluation :=
  match (eval_text ← eval_llm query context response;
         parsed ← _parse_evaluation eval_text;
         inr (Evaluation parsed.1 parsed.2 "model" None (Some eval_text))) with
  | inr ev => ev
  | inl e =>
      let result := _evaluate_heuristic query response context in
      Evaluation (scores result) (reasons result) (method result)
                 (Some (str_exn e)) (raw_evaluation result)
  end.

Definition evaluate_response (use_model : bool)
    (eval_llm : string → string → string → result string)
    (query response context : string) : evaluation :=
  if use_model then _evaluate_with_model eval_llm query response context
  else _evaluate_heuristic query response context.

End ResponseEvaluator.

(** ** IEEE 754 binary64 arithmetic

    CPython's [float] is the binary64 format of the machine. The
    operations below are those of the Standard Library's executable
    specification of IEEE 754 at precision 53, rounding to nearest with
    ties to even. A float is kept in canonical form (the form every
    operation returns), so that equal numbers are equal terms. *)

Module Binary64.

Definition float := spec_float.

Definition prec : Z := 53.
Definition emax : Z := 1024.

#[export] Instance float_inhabited : Inhabited float := populate (S754_zero false).

(** The float nearest to the fraction [num / den], negated if [s]. The
    division of the specification works on the two integers as such, so
    the quotient is rounded once, whatever their size. *)
Definition nearest (s : bool) (num den : positive) : float :=
  SFdiv prec emax (S754_finite s num 0) (S754_finite false den 0).

(** [0.0] *)
Definition zero : float := S754_zero false.

(** A decimal literal of the source: [decimal 35 1] is [3.5],
    [decimal 3 1] is [0.3]. *)
Definition decimal (digits : positive) (places : nat) : float :=
  nearest false digits (Z.to_pos (10 ^ Z.of_nat places)).

(** [float(n)] for an [int] that is not negative. *)
Definition of_int (n : nat) : float :=
  match N.of_nat n with
  | N0 => zero
  | Npos p => nearest false p 1
  end.

(** [a / b] on two [int]s, [a >= 0] and [b > 0]: the float nearest to
    the quotient. *)
Definition truediv (a : nat) (b : positive) : float :=
  match N.of_nat a with
  | N0 => zero
  | Npos p => nearest false p b
  end.

Definition add : float → float → float := SFadd prec emax.
Definition sub : float → float → float := SFsub prec emax.
Definition mul : float → float → float := SFmul prec emax.
Definition abs : float → float := SFabs.

(** [x < y] and [x <= y]; both are false when an operand is not a
    number. *)
Definition ltb : float → float → bool := SFltb.
Definition leb : float → float → bool := SFleb.

(** [min(x, y)]: the built-in keeps its first argument unless the second
    is smaller. *)
Definition min (x y : float) : float := if ltb y x then y else x.

(** The number [m * 2 ** e]. *)
Definition magnitude (m : positive) (e : Z) : Q :=
  match e with
  | Zneg k => Zpos m # Pos.pow 2 k
  | _ => inject_Z (Zpos m * 2 ^ e)%Z
  end.


(** [round(x, 2)]: the number [x] stands for is rounded to a whole
    number of hundredths, ties to even, and the result is the float
    nearest to that decimal. Infinities and not-a-number are returned
    as they are. *)
Definition round2 (x : float) : float :=
  match x with
  | S754_finite s m e =>
      match Py.round_half_even (magnitude m e * 100)%Q with
      | Zpos n => nearest s n 100
      | _ => S754_zero s
      end
  | _ => x
  end.

(** The built-in [sum] adds floats from left to right, starting from
    the [int] 0. Up to CPython 3.11 that is all; from 3.12 on, the
    rounding errors of the additions after the first are accumulated on
    the side (Neumaier's compensated summation) and added at the end.
    [setup.py] asks for Python 3.9 or later, which admits both. *)
Inductive summation := Sequential | Compensated.

Definition compensate (st : float * float) (x : float) : float * float :=
  let '(f_result, c) := st in
  let t := add f_result x in
  (t, add c (if leb (abs x) (abs f_result)
             then add (sub f_result t) x
             else add (sub x t) f_result)).

Definition is_finite (x : float) : bool :=
  match x with
  | S754_zero _ | S754_finite _ _ _ => true
  | _ => false
  end.

Definition is_zero (x : float) : bool :=
  match x with
  | S754_zero _ => true
  | _ => false
  end.

(** [sum(l)] for a list of floats that is not empty. *)
Definition sum (mode : summation) (l : list float) : float :=
  match mode, l with
  | Sequential, _ => foldl add zero l
  | Compensated, [] => zero
  | Compensated, x :: l' =>
      let '(f_result, c) := foldl compensate (add zero x, zero) l' in
      if negb (is_zero c) && is_finite c then add f_result c else f_result
  end.

End Binary64.

(** ** Python strings as sequences of code points

    The texts handed to the evaluator are arbitrary Python strings. A
    string is the list of its code points. What [str.lower], [\w], [\s]
    and [str.split] do with a code point is decided by the Unicode
    character database built into the interpreter; the evaluator is
    modelled for any such database. *)

Module Unicode.

Definition codepoint := N.
Definition str := list codepoint.

Class CharacterDatabase := {
  (** [s.lower()]: the full case mapping, which can change the length of
      a text and reads the context of a Greek capital sigma. *)
  lower : str → str;
  (** [c.isalnum()] *)
  isalnum : codepoint → bool;
  (** [c.isspace()], which is also the class [\s] and the separator of
      [str.split()]. *)
  isspace : codepoint → bool
}.

(** A literal of the source, which is ASCII. *)
Definition of_string (s : string) : str := N_of_ascii <$> list_ascii_of_string s.

Section operations.
Context {db : CharacterDatabase}.

(** The class [\w]: alphanumeric, or the underscore. *)
Definition isword (c : codepoint) : bool := isalnum c || (c =? 95)%N.

(** [s.split()]: maximal runs of code points that are not white space.
    [cur] is the run being read. *)
Fixpoint split_ws_go (cur : str) (s : str) : list str :=
  match s with
  | [] => if decide (cur = []) then [] else [cur]
  | c :: s' =>
      if isspace c
      then (if decide (cur = []) then split_ws_go [] s' else cur :: split_ws_go [] s')
      else split_ws_go (cur ++ [c]) s'
  end.

Definition split_ws : str → list str := split_ws_go [].

End operations.

(** [s.split(sep)] for a separator of one code point. [cur] is the
    piece being read. *)
Fixpoint split_at_go (sep : codepoint) (s : str) (cur : str) : list str :=
  match s with
  | [] => [cur]
  | c :: s' =>
      if decide (c = sep) then cur :: split_at_go sep s' []
      else split_at_go sep s' (cur ++ [c])
  end.

Definition split_at (sep : codepoint) (s : str) : list str := split_at_go sep s [].

(** The full stop. *)
Definition period : codepoint := 46%N.

(** The database cut down to the first 256 code points (Latin-1), where
    lower-casing works code point by code point. It is the interpreter's
    database on every text whose code points are below 256. *)
Definition within (lo hi : N) (c : codepoint) : bool := ((lo <=? c) && (c <=? hi))%N.

Definition latin1_lower (c : codepoint) : codepoint :=
  if within 65 90 c || within 192 214 c || within 216 222 c then (c + 32)%N else c.

Definition latin1_isalnum (c : codepoint) : bool :=
  within 48 57 c || within 65 90 c || within 97 122 c
  || within 170 170 c || within 178 179 c || within 181 181 c || within 185 186 c
  || within 188 190 c || within 192 214 c || within 216 246 c || within 248 255 c.

Definition latin1_isspace (c : codepoint) : bool :=
  within 9 13 c || within 28 32 c || within 133 133 c || within 160 160 c.

Definition latin1 : CharacterDatabase :=
  {| lower := map latin1_lower; isalnum := latin1_isalnum; isspace := latin1_isspace |}.

End Unicode.

(** ** app/models/evaluator_agent.py: the heuristic path, in binary64
    arithmetic and over Unicode text *)

Module HeuristicEvaluator.
Import Binary64 Unicode.

Record evaluation := Evaluation {
  scores : gmap string float;
  reasons : gmap string (list string);
  method : string
}.

Section evaluator.
Context {db : CharacterDatabase} (version : summation).

Definition stopwords : list str := of_string <$> ResponseEvaluator.stopwords.

Definition _extract_keywords (text : str) : list str :=
  let text := lower text in
  let text := filter (λ c, isword c || isspace c) text in
  let words := split_ws text in
  filter (λ word, (word ∉ stopwords) ∧ 2 < length word) words.

Definition weights : list (string * float) :=
  [ ("relevance", decimal 3 1); ("completeness", decimal 2 1);
    ("clarity", decimal 2 1); ("accuracy", decimal 3 1) ].

(** [sum(scores[metric] * weights[metric] for metric in weights)] *)
Definition weighted_sum (scores : gmap string float) : float :=
  sum version ((λ kw, mul (scores !!! kw.1) kw.2) <$> weights).

Definition _evaluate_heuristic (query response context : str) : evaluation :=
  let scores : gmap string float :=
    {[ "relevance" := zero; "completeness" := zero; "clarity" := zero;
       "accuracy" := zero; "overall" := zero ]} in
  let reasons : gmap string (list string) :=
    {[ "relevance" := []; "completeness" := []; "clarity" := []; "accuracy" := [] ]} in
  (* 1. Relevance *)
  let query_terms : gset str := list_to_set (_extract_keywords query) in
  let response_terms : gset str := list_to_set (_extract_keywords response) in
  let common_terms := query_terms ∩ response_terms in
  let relevance_score := truediv (size common_terms) (Pos.of_nat (size query_terms `max` 1)) in
  let scores := <[ "relevance" := min (mul relevance_score (of_int 5)) (decimal 50 1) ]> scores in
  let reasons :=
    if ltb (scores !!! "relevance") (decimal 25 1)
    then ResponseEvaluator.append_to "relevance"
           "Response doesn't contain many key terms from the query" reasons
    else ResponseEvaluator.append_to "relevance"
           "Response contains key terms from the query" reasons in
  (* 2. Completeness *)
  let word_count := length (split_ws response) in
  let '(scores, reasons) :=
    if word_count <? 10
    then (<[ "completeness" := decimal 10 1 ]> scores,
          ResponseEvaluator.append_to "completeness" "Response is too short" reasons)
    else if word_count <? 30
    then (<[ "completeness" := decimal 30 1 ]> scores,
          ResponseEvaluator.append_to "completeness" "Response is of medium length" reasons)
    else (<[ "completeness" := decimal 50 1 ]> scores,
          ResponseEvaluator.append_to "completeness" "Response has good length" reasons) in
  (* 3. Clarity *)
  let sentences := split_at period response in
  let avg_words_per_sentence := truediv word_count (Pos.of_nat (length sentences `max` 1)) in
  let '(scores, reasons) :=
    if ltb (of_int 25) avg_words_per_sentence
    then (<[ "clarity" := decimal 20 1 ]> scores,
          ResponseEvaluator.append_to "clarity" "Sentences are too long" reasons)
    else if ltb (of_int 15) avg_words_per_sentence
    then (<[ "clarity" := decimal 35 1 ]> scores,
          ResponseEvaluator.append_to "clarity" "Sentences are of moderate length" reasons)
    else (<[ "clarity" := decimal 50 1 ]> scores,
          ResponseEvaluator.append_to "clarity" "Sentences are concise" reasons) in
  (* 4. Accuracy *)
  let context_terms : gset str := list_to_set (_extract_keywords context) in
  let response_unique_terms := response_terms ∖ query_terms in
  let context_overlap := response_unique_terms ∩ context_terms in
  let accuracy_score :=
    truediv (size context_overlap) (Pos.of_nat (size response_unique_terms `max` 1)) in
  let scores := <[ "accuracy" := min (mul accuracy_score (of_int 5)) (decimal 50 1) ]> scores in
  let reasons :=
    if ltb (scores !!! "accuracy") (decimal 25 1)
    then ResponseEvaluator.append_to "accuracy"
           "Response contains information not in the context" reasons
    else ResponseEvaluator.append_to "accuracy"
           "Response information is present in the context" reasons in
  (* overall *)
  let overall_score := weighted_sum scores in
  let scores := <[ "overall" := round2 overall_score ]> scores in
  Evaluation scores reasons "heuristic".

End evaluator.

End HeuristicEvaluator.

(** ** app/models/qa_agent.py *)

Module QAChain.
Import Py PyStr Eff.

(** langchain's [Document]; the metadata is only ever logged. *)
Record Document := { page_content : string }.

(** The objects a [QAChain] holds, as the outside world of
    [generate_response]: the retriever, the retrieval chain and the
    evaluator. Each answers with a value or raises; the answer may
    depend on how many calls were made before. [format_exc] stands for
    [traceback.format_exc()]. *)
Record collaborators := {
  get_relevant_documents : nat → string → result (list Document);
  invoke : nat → string → list Document → result pyval;
  evaluate_response : nat → string → pyval → string → result pyval;
  format_exc : exn → string
}.

Inductive call :=
| Retrieve (query : string)
| Invoke (input : string) (context : list Document)
| Evaluate (query : string) (response : pyval) (context : string).

Abbreviation M := (Eff.M collaborators call).

(** Its own [try]/[except] turns any exception of the retriever into an
    empty list of documents. *)
Definition _debug_retrieve_documents (query : string) : M (list Document) :=
  try_except
    (perform (Retrieve query) (λ self n, get_relevant_documents self n query))
    (λ e, mret []).

(** [f"Document {i+1}:\n{content}\n"] for the documents from index [i] on. *)
Fixpoint format_from (i : nat) (docs : list Document) : list string :=
  match docs with
  | [] => []
  | doc :: docs' =>
      ("Document " +:+ pretty (i + 1) +:+ ":" +:+ nl +:+ page_content doc +:+ nl)
        :: format_from (S i) docs'
  end.

Definition _format_docs_for_evaluation (docs : list Document) : string :=
  match docs with
  | [] => EmptyString
  | _ => join nl (format_from 0 docs)
  end.

(** [response.get('answer', 'No answer generated')] *)
Definition get_answer (response : pyval) : result pyval :=
  match response with
  | PDict d => inr (default (PStr "No answer generated") (d !! "answer"))
  | _ => inl (Exn "AttributeError" "object has no attribute 'get'")
  end.

(** [response.items()] *)
Definition items (response : pyval) : result (gmap string pyval) :=
  match response with
  | PDict d => inr d
  | _ => inl (Exn "AttributeError" "object has no attribute 'items'")
  end.

(** The loop that copies the other fields of the chain's response. *)
Definition pass_through (fields result : gmap string pyval) : gmap string pyval :=
  map_fold (λ key value result,
              if decide (key ≠ "answer" ∧ result !! key = None)
              then <[ key := value ]> result else result)
           result fields.

Definition invalid_result : gmap string pyval :=
  {[ "answer" := PStr "Invalid query input." ]}.

(** The dictionary built in the [except] branch. *)
Definition error_result (self : collaborators) (e : exn) : gmap string pyval :=
  {[ "answer" := PStr ("I apologize, but I encountered an error: " +:+ str_exn e);
     "error" := PStr (str_exn e);
     "traceback" := PStr (format_exc self e);
     "evaluation" := PDict {[
        "scores" := PDict {[ "overall" := PFloat (0 : Q) ]};
        "reasons" := PDict {[ "error" := PList [PStr (str_exn e)] ]};
        "method" := PStr "error" ]} ]}.

Definition as_str (v : pyval) : string :=
  match v with
  | PStr s => s
  | _ => EmptyString
  end.

(** The body of the [try] block of [generate_response]. Logging is left
    out, and with it [_construct_debug_prompt], whose result is only
    logged. *)
Definition answer_query (query : string) : M (gmap string pyval) :=
  retrieved_docs ← _debug_retrieve_documents query;
  let retrieved_context := _format_docs_for_evaluation retrieved_docs in
  response ← perform (Invoke query retrieved_docs)
                     (λ self n, invoke self n query retrieved_docs);
  answer ← lift (get_answer response);
  evaluation ← perform (Evaluate query answer retrieved_context)
                       (λ self n, evaluate_response self n query answer retrieved_context);
  let result : gmap string pyval :=
    {[ "answer" := answer; "evaluation" := evaluation ]} in
  fields ← lift (items response);
  mret (pass_through fields result).

Definition generate_response (query : pyval) : M (gmap string pyval) :=
  if negb (truthy query) || negb (isinstance_str query)
  then mret invalid_result
  else
    let query := as_str query in
    try_except (answer_query query)
               (λ e, self ← ask; mret (error_result self e)).

(** The dictionary an evaluation is, as a Python object. *)
Definition evaluation_dict (ev : ResponseEvaluator.evaluation) : pyval :=
  let d : gmap string pyval :=
    {[ "scores" := PDict (PFloat <$> ResponseEvaluator.scores ev);
       "reasons" := PDict ((λ l, PList (PStr <$> l)) <$> ResponseEvaluator.reasons ev);
       "method" := PStr (ResponseEvaluator.method ev) ]} in
  let d := match ResponseEvaluator.error ev with
           | Some msg => <[ "error" := PStr msg ]> d
           | None => d
           end in
  PDict (match ResponseEvaluator.raw_evaluation ev with
         | Some text => <[ "raw_evaluation" := PStr text ]> d
         | None => d
         end).

(** A [ResponseEvaluator] whose [use_model] is off, as the evaluator
    of a [QAChain]. A response that is not a string has no [lower]. *)
Definition heuristic_evaluator (n : nat) (query : string) (response : pyval)
    (context : string) : result pyval :=
  match response with
  | PStr r => inr (evaluation_dict (ResponseEvaluator._evaluate_heuristic query r context))
  | _ => inl (Exn "AttributeError" "object has no attribute 'lower'")
  end.

End QAChain.

(** ** app/database/data_loader.py *)

Module DataLoader.
Import Py.

(** A cell of a pandas table read from CSV: missing (NaN) or a value.
    The reader turns an empty field into NaN. *)
Inductive cell :=
| NaN
| Value (s : string).

Definition isna (c : cell) : bool :=
  match c with
  | NaN => true
  | Value _ => false
  end.

(** A row maps column names to cells. *)
Record DataFrame := {
  columns : list string;
  rows : list (gmap string cell)
}.

(** [row[col]] *)
Definition at_col (row : gmap string cell) (col : string) : cell :=
  default NaN (row !! col).

(** [df[cols].isna().any(axis=1)], row by row. *)
Definition any_na (cols : list string) (row : gmap string cell) : bool :=
  existsb (λ col, isna (at_col row col)) cols.

(** [df.dropna(subset=cols)] *)
Definition dropna (subset : list string) (df : DataFrame) : DataFrame :=
  {| columns := columns df;
     rows := filter (λ row, Forall (λ col, isna (at_col row col) = false) subset) (rows df) |}.

(** [read_csv] is the outcome of [pd.read_csv(csv_path)]. *)
Definition load_faq_data (read_csv : result DataFrame) : option DataFrame :=
  match read_csv with
  | inl e => None
  | inr df =>
      let required_columns := ["question"; "answer"] in
      let missing_columns := filter (λ col, col ∉ columns df) required_columns in
      if negb (bool_decide (missing_columns = [])) then None
      else
        let empty_rows := filter (λ row, any_na required_columns row = true) (rows df) in
        if negb (bool_decide (empty_rows = []))
        then Some (dropna required_columns df)
        else Some df
  end.

(** How a cell prints inside an f-string. *)
Definition str_cell (c : cell) : string :=
  match c with
  | NaN => "nan"
  | Value s => s
  end.

Definition create_documents_from_faqs (df : DataFrame) : list string :=
  (λ row, "Q: " +:+ str_cell (at_col row "question") +:+ nl
          +:+ "A: " +:+ str_cell (at_col row "answer")) <$> rows df.

End DataLoader.

(** ** app/config.py and app/ui/chat_interface.py *)

Module Config.
Definition TOP_K : nat := 6.
Definition MAX_HISTORY_LENGTH : nat := 20.
End Config.

Module ChatInterface.
Import Py.

(** [{"role": role, "content": content, **kwargs}] *)
Record message := Message {
  role : string;
  content : string;
  kwargs : gmap string pyval
}.

(** [st.session_state.messages] before and after the call. *)
Definition add_message (messages : list message) (role content : string)
    (kwargs : gmap string pyval) : list message :=
  let message := Message role content kwargs in
  let messages := messages ++ [message] in
  if Config.MAX_HISTORY_LENGTH <? length messages
  then last_slice messages Config.MAX_HISTORY_LENGTH
  else messages.

(** A sequence of [add_message] calls, one per element of [new]. *)
Definition add_messages (messages : list message) (new : list message) : list message :=
  foldl (λ ms m, add_message ms (role m) (content m) (kwargs m)) messages new.

End ChatInterface.

(** * Properties *)

(** ** Running the monad *)

Section eff_run.
Context {Env Ev : Type}.
Implicit Types (env : Env) (w : list Ev).

Lemma run_bind {A B} (m : Eff.M Env Ev A) (k : A → Eff.M Env Ev B) env w :
  (m ≫= k) env w =
  match m env w with
  | (inl e, w') => (inl e, w')
  | (inr a, w') => k a env w'
  end.
Proof. reflexivity. Qed.

Lemma run_ret {A} (a : A) env w : (mret a : Eff.M Env Ev A) env w = (inr a, w).
Proof. reflexivity. Qed.

Lemma run_try_ok {A} (m : Eff.M Env Ev A) h env w a w' :
  m env w = (inr a, w') → Eff.try_except m h env w = (inr a, w').
Proof. unfold Eff.try_except. by intros ->. Qed.

Lemma run_try_raise {A} (m : Eff.M Env Ev A) h env w e w' :
  m env w = (inl e, w') → Eff.try_except m h env w = h e env w'.
Proof. unfold Eff.try_except. by intros ->. Qed.
End eff_run.

(** ** The remote embedding provider *)

Module EmbeddingFacts.
Import Py Eff Net CustomLocalEmbeddings.

(** The request that carries one batch. *)
Definition request_of (self : t) (batch : list string) : request :=
  Request (embeddings_url self) (authorization self) (_create_embedding_request self batch).

(** The [k]-th batch of [texts]. *)
Definition batch_at (texts : list string) (k : nat) : list string :=
  slice texts (k * batch_size) (k * batch_size + batch_size).

(** The number of batches. *)
Definition batches (texts : list string) : nat := (length texts + 2) / 3.

(** What one batch contributes to the output when its request is the
    [n]-th one the service sees. *)
Definition chunk_output (self : t) (srv : server) (n : nat) (batch : list string)
    : list (list float) :=
  match srv n (request_of self batch) with
  | Failed _ => replicate (length batch) (zero_vector self)
  | Replied r => embedding <$> data r
  end.

(** The service contract of the embedding endpoint: a reply carries one
    entry per input. *)
Definition one_entry_per_input (srv : server) : Prop :=
  ∀ n req r, srv n req = Replied r → length (data r) = length (p_input (req_json req)).

Section facts.
Variable self : t.
Variable srv : server.

Lemma embed_batch_run texts i acc w :
  embed_batch self texts i acc srv w =
  (inr (acc ++ chunk_output self srv (length w) (slice texts i (i + batch_size))),
   w ++ [request_of self (slice texts i (i + batch_size))]).
Proof.
  unfold embed_batch, try_except, chunk_output, _make_embedding_request, post.
  rewrite run_bind. unfold perform. fold (request_of self (slice texts i (i + batch_size))).
  by destruct (srv (length w) _).
Qed.

Lemma for_each_batches texts m a acc w :
  for_each ((λ k, 0 + k * batch_size) <$> seq a m) (embed_batch self texts) acc srv w =
  (inr (acc ++ concat ((λ j, chunk_output self srv (length w + j) (batch_at texts (a + j)))
                         <$> seq 0 m)),
   w ++ ((λ j, request_of self (batch_at texts (a + j))) <$> seq 0 m)).
Proof.
  revert a acc w. induction m as [|m IH]; intros a acc w.
  - simpl. unfold ret. by rewrite !app_nil_r.
  - change (seq a (S m)) with (a :: seq (S a) m). rewrite !fmap_cons.
    cbn [for_each]. unfold bind at 1.
    rewrite embed_batch_run, IH, length_app. cbn [length].
    change (seq 0 (S m)) with (0 :: seq 1 m).
    rewrite !fmap_cons, <- !fmap_S_seq, <- !list_fmap_compose.
    cbn [concat]. rewrite <- !app_assoc, !Nat.add_0_r. cbn [app].
    change (slice texts (0 + a * batch_size) (0 + a * batch_size + batch_size))
      with (batch_at texts a).
    f_equal; [do 4 f_equal|do 2 f_equal].
    + apply list_fmap_ext; intros _ j _. simpl. f_equal; [lia|f_equal; lia].
    + apply list_fmap_ext; intros _ j _. simpl. do 2 f_equal. lia.
Qed.

(** What [embed_documents] computes: the concatenation of the batch
    outputs, with one request per batch. *)
Lemma embed_documents_run texts w :
  embed_documents self texts srv w =
  (inr (concat ((λ j, chunk_output self srv (length w + j) (batch_at texts j))
                  <$> seq 0 (batches texts))),
   w ++ ((λ j, request_of self (batch_at texts j)) <$> seq 0 (batches texts))).
Proof.
  unfold embed_documents. destruct texts as [|t0 texts'] eqn:Htexts.
  - unfold ret. simpl. by rewrite app_nil_r.
  - rewrite <- Htexts. unfold range.
    replace ((length texts - 0 + (batch_size - 1)) / batch_size) with (batches texts)
      by (unfold batches, batch_size; f_equal; lia).
    by rewrite for_each_batches.
Qed.

Lemma length_batch_at texts k :
  length (batch_at texts k) = (length texts - 3 * k) `min` 3.
Proof.
  unfold batch_at, slice, batch_size. rewrite length_take, length_drop. lia.
Qed.

Lemma length_chunk_output n texts k :
  one_entry_per_input srv →
  length (chunk_output self srv n (batch_at texts k)) = (length texts - 3 * k) `min` 3.
Proof.
  intros Hwf. unfold chunk_output.
  destruct (srv n _) as [e|r] eqn:Hr.
  - by rewrite length_replicate, length_batch_at.
  - rewrite length_fmap, (Hwf _ _ _ Hr). simpl. apply length_batch_at.
Qed.
End facts.

(** Blocks of three laid end to end: where position [i] lands. *)
Lemma concat_blocks {A} (f : nat → list A) (n m : nat) :
  (∀ j, j < m → length (f j) = (n - 3 * j) `min` 3) →
  length (concat (f <$> seq 0 m)) = n `min` (3 * m) ∧
  ∀ i, i < n `min` (3 * m) → concat (f <$> seq 0 m) !! i = f (i / 3) !! (i mod 3).
Proof.
  induction m as [|m IH]; intros Hlen.
  - split; [simpl; lia|intros i Hi; lia].
  - destruct IH as [IHlen IHlook]; [intros j Hj; apply Hlen; lia|].
    rewrite seq_S, fmap_app, concat_app.
    change (concat (f <$> [0 + m])) with (f m ++ []). rewrite app_nil_r.
    split.
    + rewrite length_app, IHlen, Hlen by lia. lia.
    + intros i Hi. destruct (decide (i < n `min` (3 * m))) as [Hlt|Hge].
      * rewrite lookup_app_l by lia. by apply IHlook.
      * rewrite lookup_app_r by lia. rewrite IHlen.
        assert (i / 3 = m) as -> by (symmetry; apply (Nat.div_unique i 3 m (i - 3 * m)); lia).
        f_equal. apply (Nat.mod_unique i 3 m); lia.
Qed.

Implicit Types (texts : list string) (self : t) (srv : server) (w : list request).

Lemma batches_cover texts : length texts `min` (3 * batches texts) = length texts.
Proof.
  unfold batches. pose proof (Nat.div_mod_eq (length texts + 2) 3).
  pose proof (Nat.mod_upper_bound (length texts + 2) 3). lia.
Qed.

Lemma mod3_lt_batch texts i :
  i < length texts → i mod 3 < (length texts - 3 * (i / 3)) `min` 3.
Proof.
  intros Hi. pose proof (Nat.div_mod_eq i 3).
  pose proof (Nat.mod_upper_bound i 3). lia.
Qed.

(** Slot [i] of the output is entry [i mod 3] of what batch [i / 3]
    contributed. *)
Lemma embed_documents_slots self srv w texts :
  one_entry_per_input srv →
  let out := concat ((λ j, chunk_output self srv (length w + j) (batch_at texts j))
                       <$> seq 0 (batches texts)) in
  length out = length texts ∧
  ∀ i, i < length texts →
       out !! i = chunk_output self srv (length w + i / 3) (batch_at texts (i / 3)) !! (i mod 3).
Proof.
  intros Hwf out.
  destruct (concat_blocks
              (λ j, chunk_output self srv (length w + j) (batch_at texts j))
              (length texts) (batches texts)) as [Hlen Hlook].
  { intros j _. by apply length_chunk_output. }
  rewrite batches_cover in Hlen, Hlook. split; [exact Hlen|exact Hlook].
Qed.

(** The batches are consecutive groups of three texts, the last one
    possibly shorter, and together they are the input. *)
Lemma batch_at_lookup texts i :
  i < length texts → batch_at texts (i / 3) !! (i mod 3) = texts !! i.
Proof.
  intros Hi. unfold batch_at, slice, batch_size.
  pose proof (Nat.div_mod_eq i 3). pose proof (Nat.mod_upper_bound i 3).
  rewrite lookup_take_lt by lia. rewrite lookup_drop. f_equal. lia.
Qed.

Lemma concat_batches texts : concat (batch_at texts <$> seq 0 (batches texts)) = texts.
Proof.
  destruct (concat_blocks (batch_at texts) (length texts) (batches texts)) as [Hlen Hlook].
  { intros j _. rewrite length_batch_at. done. }
  rewrite batches_cover in Hlen, Hlook.
  apply list_eq. intros i. destruct (decide (i < length texts)) as [Hi|Hi].
  - rewrite Hlook by done. by apply batch_at_lookup.
  - rewrite !lookup_ge_None_2; [done|lia|lia].
Qed.

Lemma batch_sizes texts k :
  k < batches texts →
  1 ≤ length (batch_at texts k) ≤ 3 ∧
  (S k < batches texts → length (batch_at texts k) = 3).
Proof.
  unfold batches. rewrite length_batch_at. intros Hk.
  pose proof (Nat.div_mod_eq (length texts + 2) 3).
  pose proof (Nat.mod_upper_bound (length texts + 2) 3). lia.
Qed.

(** C10: [embed_documents] on the empty list returns the empty list at
    once; the list of requests attempted is left as it was, so no HTTP
    request is issued. *)
Theorem embed_documents_empty self srv w :
  embed_documents self [] srv w = (inr [], w).
Proof. reflexivity. Qed.

(** C2: against a service that answers with one entry per input,
    [embed_documents] never raises and returns exactly as many vectors
    as it was given texts, whichever batch requests fail. It issues one
    request per batch, in order; the batches are consecutive groups of
    three texts (the last one may be shorter) that together make up the
    input. Output slot [i] belongs to input text [i]: that text is entry
    [i mod 3] of batch [i / 3], and the slot holds entry [i mod 3] of
    that batch's reply, or the zero vector if that batch's request
    failed. *)
Theorem embed_documents_length_positions self srv w texts :
  one_entry_per_input srv →
  ∃ out,
    embed_documents self texts srv w =
      (inr out, w ++ (request_of self <$> (batch_at texts <$> seq 0 (batches texts))))
    ∧ length out = length texts
    ∧ concat (batch_at texts <$> seq 0 (batches texts)) = texts
    ∧ (∀ k, k < batches texts →
            1 ≤ length (batch_at texts k) ≤ 3 ∧
            (S k < batches texts → length (batch_at texts k) = 3))
    ∧ (∀ i, i < length texts →
            batch_at texts (i / 3) !! (i mod 3) = texts !! i ∧
            ∃ v, out !! i = Some v ∧
                 match srv (length w + i / 3) (request_of self (batch_at texts (i / 3))) with
                 | Failed _ => v = zero_vector self
                 | Replied r => (embedding <$> data r) !! (i mod 3) = Some v
                 end).
Proof.
  intros Hwf. eexists. split.
  { rewrite embed_documents_run, <- list_fmap_compose. reflexivity. }
  destruct (embed_documents_slots self srv w texts Hwf) as [Hlen Hlook].
  split; [exact Hlen|]. split; [apply concat_batches|].
  split; [apply batch_sizes|].
  intros i Hi. split; [by apply batch_at_lookup|].
  rewrite (Hlook i Hi).
  pose proof (length_chunk_output self srv (length w + i / 3) texts (i / 3) Hwf) as Hc.
  pose proof (mod3_lt_batch texts i Hi) as Hm.
  destruct (lookup_lt_is_Some_2
              (chunk_output self srv (length w + i / 3) (batch_at texts (i / 3)))
              (i mod 3)) as [v Hv]; [lia|].
  exists v. split; [exact Hv|].
  unfold chunk_output in Hv.
  destruct (srv (length w + i / 3) _) as [e|r].
  - apply lookup_replicate in Hv. by destruct Hv.
  - exact Hv.
Qed.

(** A service that answers every request but the second, one entry per
    input. *)
Definition flaky_server : server :=
  λ n req, if n =? 1 then Failed (Exn "ValueError" "API request failed: 500 - busy")
           else Replied (Response ((λ _, Item [1; 2]%Q) <$> p_input (req_json req))).

Lemma flaky_server_contract : one_entry_per_input flaky_server.
Proof.
  intros n req r. unfold flaky_server. destruct (n =? 1); [done|].
  intros [= <-]. simpl. by rewrite length_fmap.
Qed.

Definition sample_provider : t :=
  CustomLocalEmbeddings.init "http://localhost:8000/v1" "secret" "ebbge-v2".

Lemma embed_documents_length_positions_witness :
  one_entry_per_input flaky_server ∧
  ∃ out,
    embed_documents sample_provider ["a"; "b"; "c"; "d"; "e"] flaky_server [] =
      (inr out, [] ++ (request_of sample_provider <$>
                         (batch_at ["a"; "b"; "c"; "d"; "e"] <$>
                            seq 0 (batches ["a"; "b"; "c"; "d"; "e"]))))
    ∧ length out = 5.
Proof.
  destruct (embed_documents_length_positions sample_provider flaky_server []
              ["a"; "b"; "c"; "d"; "e"] flaky_server_contract) as (out & Hrun & Hlen & _).
  split; [exact flaky_server_contract|].
  exists out. split; [exact Hrun|exact Hlen].
Defined.

(** C1, as the code has it: when the request of a batch fails, every
    output slot of that batch is a vector of zeros whose length is the
    provider's [dimensions] setting if that is set and not 0, and 384
    otherwise. The length does not come from the probe made when the
    vector store is initialised. *)
Theorem failed_batch_zero_vectors self srv w texts i e :
  one_entry_per_input srv →
  i < length texts →
  srv (length w + i / 3) (request_of self (batch_at texts (i / 3))) = Failed e →
  ∃ out w',
    embed_documents self texts srv w = (inr out, w')
    ∧ out !! i = Some (replicate (Z.to_nat (fallback_dimensions self)) (0 : Q))
    ∧ (dimensions self = None → out !! i = Some (replicate 384 (0 : Q)))
    ∧ (∀ d, dimensions self = Some d → (0 < d)%Z →
            out !! i = Some (replicate (Z.to_nat d) (0 : Q))).
Proof.
  intros Hwf Hi Hfail. do 2 eexists. split; [apply embed_documents_run|].
  destruct (embed_documents_slots self srv w texts Hwf) as [_ Hlook].
  assert (concat ((λ j, chunk_output self srv (length w + j) (batch_at texts j))
                    <$> seq 0 (batches texts)) !! i
          = Some (replicate (Z.to_nat (fallback_dimensions self)) (0 : Q))) as Hslot.
  { etrans; [apply (Hlook i Hi)|]. unfold chunk_output. rewrite Hfail.
    apply lookup_replicate. split; [done|].
    rewrite length_batch_at. by apply mod3_lt_batch. }
  split; [exact Hslot|]. split.
  - intros Hd. rewrite Hslot. unfold fallback_dimensions. by rewrite Hd.
  - intros d Hd Hpos. rewrite Hslot. unfold fallback_dimensions. rewrite Hd.
    destruct (Z.eqb_spec d 0); [lia|done].
Qed.

Lemma failed_batch_zero_vectors_witness :
  one_entry_per_input flaky_server ∧
  ∃ out w',
    embed_documents sample_provider ["a"; "b"; "c"; "d"; "e"] flaky_server [] = (inr out, w')
    ∧ out !! 4 = Some (replicate 384 (0 : Q)).
Proof.
  split; [exact flaky_server_contract|].
  destruct (failed_batch_zero_vectors sample_provider flaky_server []
              ["a"; "b"; "c"; "d"; "e"] 4
              (Exn "ValueError" "API request failed: 500 - busy")
              flaky_server_contract) as (out & w' & Hrun & _ & Hnone & _).
  - simpl. lia.
  - reflexivity.
  - exists out, w'. split; [exact Hrun|]. apply Hnone. reflexivity.
Defined.

End EmbeddingFacts.

(** ** The vector store *)

Module VectorStoreFacts.
Import Py Eff Net VectorStore.

(** C5: when the probe call [embed_query] raises, [initialize] answers
    [False] and the object is exactly as it was before the call; the
    only requests attempted are those of the probe. A store that was
    uninitialised stays so: nothing is indexed and [get_retriever] has
    nothing to hand out. *)
Theorem initialize_probe_failure `{Embeddings E} (self : VectorStore.t E)
    (documents : list string) (srv : server) (w w' : list request) (e : exn) :
  embed_query (embeddings self) "Test embedding" srv w = (inl e, w') →
  initialize self documents srv w = (inr (false, self), w')
  ∧ (vectorstore self = None →
     ∃ self', initialize self documents srv w = (inr (false, self'), w')
              ∧ vectorstore self' = None
              ∧ indexed_documents self' = 0
              ∧ has_retriever self' = false).
Proof.
  intros Hprobe.
  assert (initialize self documents srv w = (inr (false, self), w')) as Hrun.
  { unfold initialize, try_except. rewrite run_bind. unfold try_except.
    rewrite run_bind, Hprobe. reflexivity. }
  split; [exact Hrun|]. intros Hnone. exists self.
  unfold indexed_documents, has_retriever. by rewrite Hnone.
Qed.

(** A service that is down. *)
Definition dead_server : server :=
  λ _ _, Failed (Exn "ValueError" "Request error: connection refused").

Lemma initialize_probe_failure_witness :
  ∃ w', initialize (VectorStore.init EmbeddingFacts.sample_provider) ["Q: a"; "Q: b"]
          dead_server [] =
        (inr (false, VectorStore.init EmbeddingFacts.sample_provider), w')
        ∧ length w' = 1.
Proof.
  eexists. split.
  - apply (initialize_probe_failure
             (VectorStore.init EmbeddingFacts.sample_provider) ["Q: a"; "Q: b"]
             dead_server [] _
             (Exn "ValueError" "Request error: connection refused")).
    reflexivity.
  - reflexivity.
Defined.

(** The probe is answered with a two-dimensional vector; every later
    request fails. *)
Definition probe_only_server : server :=
  λ n _, if n =? 0 then Replied (Response [Item [1; 2]%Q])
         else Failed (Exn "ValueError" "API request failed: 500 - busy").

(** C1, as stated, fails: the probe finds dimensionality 2, the request
    of the only batch fails, and the slot of that batch is filled with a
    zero vector of length 384. *)
Lemma zero_vector_length_counterexample :
  (embed_query EmbeddingFacts.sample_provider "Test embedding" probe_only_server []).1
    = inr [1; 2]%Q
  ∧ (initialize (VectorStore.init EmbeddingFacts.sample_provider) ["Q: a"]
       probe_only_server []).1
    = inr (true, VectorStore.Make EmbeddingFacts.sample_provider
                   (Some {| store := [("Q: a", replicate 384 (0 : Q))] |}))
  ∧ replicate 384 (0 : Q) ≠ replicate (length [1; 2]%Q) (0 : Q).
Proof.
  split; [reflexivity|]. split; [vm_compute; reflexivity|].
  intros Heq. apply (f_equal length) in Heq. rewrite !length_replicate in Heq.
  discriminate Heq.
Qed.

End VectorStoreFacts.

(** ** The chat history *)

Module ChatFacts.
Import Py ChatInterface.

Implicit Types (messages new : list message) (m : message).

Lemma add_message_last messages m :
  add_message messages (role m) (content m) (kwargs m) =
  drop (length (messages ++ [m]) - Config.MAX_HISTORY_LENGTH) (messages ++ [m]).
Proof.
  unfold add_message. destruct m as [r c k]. cbn [role content kwargs].
  destruct (Nat.ltb_spec Config.MAX_HISTORY_LENGTH (length (messages ++ [Message r c k])))
    as [Hlt|Hge].
  - reflexivity.
  - replace (length (messages ++ [Message r c k]) - Config.MAX_HISTORY_LENGTH) with 0 by lia.
    reflexivity.
Qed.

Lemma add_messages_snoc messages new m :
  add_messages messages (new ++ [m]) =
  add_message (add_messages messages new) (role m) (content m) (kwargs m).
Proof. unfold add_messages. by rewrite foldl_snoc. Qed.

(** After at least one call, the history is the last
    [MAX_HISTORY_LENGTH] messages of everything that was ever stored. *)
Lemma add_messages_last messages new :
  new ≠ [] →
  add_messages messages new =
  drop (length (messages ++ new) - Config.MAX_HISTORY_LENGTH) (messages ++ new).
Proof.
  induction new as [|m new IH] using rev_ind; [done|]. intros _.
  rewrite add_messages_snoc, add_message_last.
  destruct new as [|m0 new'] eqn:Hnew.
  - reflexivity.
  - rewrite <- Hnew in *. rewrite IH by (by rewrite Hnew). clear IH.
    rewrite (assoc_L (++) messages new [m]).
    set (l := messages ++ new). set (k := Config.MAX_HISTORY_LENGTH).
    destruct (decide (length l ≤ k)) as [Hle|Hgt].
    + replace (length l - k) with 0 by lia. reflexivity.
    + rewrite <- (drop_app_le l [m] (length l - k)) by lia.
      rewrite drop_drop. f_equal.
      rewrite !length_app, length_drop, length_app. simpl. lia.
Qed.

(** C9: whatever the history held before, once more than
    [MAX_HISTORY_LENGTH] (20) messages have been appended by
    [add_message], the stored history has exactly
    [MAX_HISTORY_LENGTH] entries: the most recent ones, in the order in
    which they were appended. *)
Theorem history_keeps_most_recent messages new :
  Config.MAX_HISTORY_LENGTH < length new →
  length (add_messages messages new) = Config.MAX_HISTORY_LENGTH
  ∧ add_messages messages new = drop (length new - Config.MAX_HISTORY_LENGTH) new
  ∧ Config.MAX_HISTORY_LENGTH = 20.
Proof.
  intros Hn.
  assert (add_messages messages new = drop (length new - Config.MAX_HISTORY_LENGTH) new)
    as Heq.
  { rewrite add_messages_last by (intros ->; simpl in Hn; lia).
    rewrite drop_app_ge by (rewrite length_app; lia). f_equal.
    rewrite length_app. lia. }
  split; [|split; [exact Heq|reflexivity]].
  rewrite Heq, length_drop. lia.
Qed.

Definition numbered (i : nat) : message := Message "user" (pretty i) ∅.

Lemma history_keeps_most_recent_witness :
  add_messages [] (numbered <$> seq 0 23) = numbered <$> seq 3 20.
Proof.
  destruct (history_keeps_most_recent [] (numbered <$> seq 0 23)) as (_ & Heq & _).
  - vm_compute. lia.
  - rewrite Heq. reflexivity.
Defined.

End ChatFacts.

(** ** Loading the FAQ table *)

Module DataLoaderFacts.
Import Py DataLoader.

(** Both required fields are present. *)
Definition complete (row : gmap string cell) : Prop :=
  at_col row "question" ≠ NaN ∧ at_col row "answer" ≠ NaN.

#[export] Instance cell_eq_dec : EqDecision cell.
Proof. solve_decision. Defined.

#[export] Instance complete_dec row : Decision (complete row).
Proof. unfold complete. apply _. Defined.

(** What [pd.read_csv] guarantees with its default settings: an empty
    field is read as NaN, never as an empty string. *)
Definition read_by_pandas (df : DataFrame) : Prop :=
  ∀ row col, row ∈ rows df → row !! col ≠ Some (Value EmptyString).

Lemma isna_false c : isna c = false ↔ c ≠ NaN.
Proof. destruct c; simpl; split; congruence. Qed.

Lemma any_na_complete row : any_na ["question"; "answer"] row = true ↔ ¬ complete row.
Proof.
  unfold any_na, complete. simpl. rewrite orb_false_r, orb_true_iff.
  destruct (at_col row "question"), (at_col row "answer"); simpl; split; intros; try tauto;
    try (destruct H; discriminate); try (exfalso; apply H; split; discriminate).
Qed.

Lemma subset_complete row :
  Forall (λ col, isna (at_col row col) = false) ["question"; "answer"] ↔ complete row.
Proof.
  unfold complete. rewrite !Forall_cons, Forall_nil, !isna_false. tauto.
Qed.

Lemma dropna_rows df :
  rows (dropna ["question"; "answer"] df) = filter complete (rows df).
Proof.
  unfold dropna. simpl. apply list_filter_iff. intros row. apply subset_complete.
Qed.

Lemma filter_all {A} (P : A → Prop) `{∀ x, Decision (P x)} (l : list A) :
  Forall P l → filter P l = l.
Proof.
  induction 1 as [|x l Hx _ IH]; [done|]. by rewrite filter_cons_True, IH.
Qed.

Lemma loaded_rows df df' :
  load_faq_data (inr df) = Some df' → rows df' = filter complete (rows df).
Proof.
  unfold load_faq_data.
  destruct (bool_decide _); cbn [negb]; [|done].
  case_bool_decide as Hnone; cbn [negb]; intros [= <-].
  - symmetry. apply filter_all, Forall_forall. intros row Hrow.
    destruct (decide (complete row)) as [|Hbad]; [done|]. exfalso.
    apply any_na_complete in Hbad.
    by apply (filter_nil_not_elem_of _ _ row Hnone Hbad).
  - apply dropna_rows.
Qed.

(** C8: the table [load_faq_data] hands on holds exactly the rows of
    the table read whose question and answer are both present, in their
    original order; every row with a missing question or answer is
    gone. So each row the document builder sees has a question and an
    answer, and, as the reader never yields an empty string, neither is
    empty. *)
Theorem load_faq_data_rows_complete df df' :
  read_by_pandas df →
  load_faq_data (inr df) = Some df' →
  rows df' = filter complete (rows df)
  ∧ (∀ row, row ∈ rows df → ¬ complete row → row ∉ rows df')
  ∧ (∀ row, row ∈ rows df' →
       ∃ question answer,
         at_col row "question" = Value question ∧ question ≠ EmptyString ∧
         at_col row "answer" = Value answer ∧ answer ≠ EmptyString)
  ∧ create_documents_from_faqs df' =
      (λ row, "Q: " +:+ str_cell (at_col row "question") +:+ nl
              +:+ "A: " +:+ str_cell (at_col row "answer")) <$> filter complete (rows df).
Proof.
  intros Hcsv Hload. pose proof (loaded_rows df df' Hload) as Hrows.
  split; [exact Hrows|]. split; [|split].
  - intros row _ Hbad. rewrite Hrows, list_elem_of_filter. tauto.
  - intros row. rewrite Hrows, list_elem_of_filter. intros [[Hq Ha] Hin].
    unfold at_col in *.
    pose proof (Hcsv row "question" Hin) as Hq'. pose proof (Hcsv row "answer" Hin) as Ha'.
    destruct (row !! "question") as [[|q]|]; simpl in *; try done.
    destruct (row !! "answer") as [[|a]|]; simpl in *; try done.
    exists q, a. repeat split; congruence.
  - unfold create_documents_from_faqs. by rewrite Hrows.
Qed.

Definition row_of (question answer : cell) : gmap string cell :=
  {[ "question" := question; "answer" := answer ]}.

Definition sample_table : DataFrame :=
  {| columns := ["question"; "answer"];
     rows := [ row_of (Value "Apa itu Nawatech?") (Value "Perusahaan teknologi");
               row_of (Value "Siapa CEO Nawatech?") NaN;
               row_of NaN (Value "Arfan Arlanda");
               row_of (Value "Q1?") (Value "A1.") ] |}.

Lemma row_of_lookup question answer col :
  question ≠ Value EmptyString → answer ≠ Value EmptyString →
  row_of question answer !! col ≠ Some (Value EmptyString).
Proof.
  intros Hq Ha. unfold row_of.
  destruct (decide (col = "question")) as [->|?].
  { rewrite lookup_insert_eq. congruence. }
  rewrite lookup_insert_ne by done.
  destruct (decide (col = "answer")) as [->|?].
  { rewrite lookup_singleton_eq. congruence. }
  by rewrite lookup_singleton_ne.
Qed.

Lemma sample_table_read : read_by_pandas sample_table.
Proof.
  intros row col Hin. unfold sample_table in Hin. cbn [rows] in Hin.
  repeat (apply elem_of_cons in Hin as [->|Hin]);
    [..|by apply not_elem_of_nil in Hin]; by apply row_of_lookup.
Qed.

Lemma load_faq_data_rows_complete_witness :
  rows (dropna ["question"; "answer"] sample_table) = filter complete (rows sample_table)
  ∧ length (rows (dropna ["question"; "answer"] sample_table)) = 2.
Proof.
  destruct (load_faq_data_rows_complete sample_table
              (dropna ["question"; "answer"] sample_table)) as (Hrows & _).
  - exact sample_table_read.
  - vm_compute. reflexivity.
  - split; [exact Hrows|]. vm_compute. reflexivity.
Defined.

End DataLoaderFacts.

(** ** The answer generator *)

Module QAFacts.
Import Py PyStr Eff QAChain.

(** The error result as the specification words it: answer, error and
    evaluation, nothing else. *)
Definition spec_error_result (message : string) : gmap string pyval :=
  {[ "answer" := PStr ("I apologize, but I encountered an error: " +:+ message);
     "error" := PStr message;
     "evaluation" := PDict {[
        "scores" := PDict {[ "overall" := PFloat (0 : Q) ]};
        "reasons" := PDict {[ "error" := PList [PStr message] ]};
        "method" := PStr "error" ]} ]}.

(** The documents [_debug_retrieve_documents] hands on: those the
    retriever returned, or none if it raised. *)
Definition retrieved (self : collaborators) (n : nat) (query : string) : list Document :=
  match get_relevant_documents self n query with
  | inr docs => docs
  | inl _ => []
  end.

Implicit Types (self : collaborators) (w : list call) (q : string).

Lemma debug_retrieve_run self w q :
  _debug_retrieve_documents q self w = (inr (retrieved self (length w) q), w ++ [Retrieve q]).
Proof.
  unfold _debug_retrieve_documents, try_except, perform, retrieved.
  by destruct (get_relevant_documents self (length w) q).
Qed.

Lemma valid_query_run self w q :
  q ≠ EmptyString →
  generate_response (PStr q) self w =
  try_except (answer_query q) (λ e, self ← ask; mret (error_result self e)) self w.
Proof.
  intros Hq. unfold generate_response. cbn [truthy isinstance_str negb orb as_str].
  by rewrite bool_decide_false.
Qed.

Lemma error_result_fields self e :
  delete "traceback" (error_result self e) = spec_error_result (str_exn e)
  ∧ error_result self e !! "traceback" = Some (PStr (format_exc self e)).
Proof.
  split.
  - apply map_eq. intros k. unfold error_result, spec_error_result.
    destruct (decide (k = "traceback")) as [->|Hk].
    + rewrite lookup_delete_eq. reflexivity.
    + rewrite lookup_delete_ne by done.
      destruct (decide (k = "answer")) as [->|?]; [reflexivity|].
      rewrite !(lookup_insert_ne _ "answer") by done.
      destruct (decide (k = "error")) as [->|?]; [reflexivity|].
      rewrite !(lookup_insert_ne _ "error") by done.
      by rewrite (lookup_insert_ne _ "traceback") by done.
  - reflexivity.
Qed.

(** C6: the empty string and [None] are answered at once with exactly
    [{answer: "Invalid query input."}]; the list of collaborator calls
    is left as it was, so neither the retriever nor the model nor the
    evaluator is invoked and no network call is made. *)
Theorem invalid_query_short_circuit self w :
  generate_response (PStr EmptyString) self w =
    (inr {[ "answer" := PStr "Invalid query input." ]}, w)
  ∧ generate_response PNone self w =
    (inr {[ "answer" := PStr "Invalid query input." ]}, w).
Proof. split; reflexivity. Qed.

(** C3, as the code has it. For a query that passes validation,
    [generate_response] never raises. An exception raised by the
    retriever is absorbed inside [_debug_retrieve_documents]: the
    pipeline goes on with no documents. An exception raised at any
    later stage (invoking the chain, taking the answer out of its
    response, evaluating, copying the other fields) is caught and
    turned into the error result, which holds the answer, error and
    evaluation fields of the specification and, besides them, a
    traceback field. *)
Theorem generate_response_error_result self w q :
  q ≠ EmptyString →
  let docs := retrieved self (length w) q in
  let ctx := _format_docs_for_evaluation docs in
  (∃ res w', generate_response (PStr q) self w = (inr res, w'))
  ∧ (∀ e w', answer_query q self w = (inl e, w') →
       generate_response (PStr q) self w = (inr (error_result self e), w'))
  ∧ (∀ e, delete "traceback" (error_result self e) = spec_error_result (str_exn e)
          ∧ error_result self e !! "traceback" = Some (PStr (format_exc self e)))
  ∧ (∀ e, invoke self (length w + 1) q docs = inl e →
       generate_response (PStr q) self w =
         (inr (error_result self e), w ++ [Retrieve q; Invoke q docs]))
  ∧ (∀ response e,
       invoke self (length w + 1) q docs = inr response →
       get_answer response = inl e →
       generate_response (PStr q) self w =
         (inr (error_result self e), w ++ [Retrieve q; Invoke q docs]))
  ∧ (∀ response answer e,
       invoke self (length w + 1) q docs = inr response →
       get_answer response = inr answer →
       evaluate_response self (length w + 2) q answer ctx = inl e →
       generate_response (PStr q) self w =
         (inr (error_result self e),
          w ++ [Retrieve q; Invoke q docs; Evaluate q answer ctx])).
Proof.
  intros Hq docs ctx.
  assert (∀ e w', answer_query q self w = (inl e, w') →
            generate_response (PStr q) self w = (inr (error_result self e), w')) as Hcatch.
  { intros e w' Hrun. rewrite valid_query_run by done.
    by rewrite (run_try_raise _ _ _ _ _ _ Hrun). }
  assert (∀ n, length (w ++ [Retrieve q]) + n = length w + S n) as Hlen.
  { intros n. rewrite length_app. simpl. lia. }
  split; [|split; [exact Hcatch|split; [apply error_result_fields|]]].
  { rewrite valid_query_run by done. unfold try_except.
    destruct (answer_query q self w) as [[e|res] w'] eqn:Hrun; eauto. }
  split; [|split].
  - intros e He. apply Hcatch. unfold answer_query.
    rewrite run_bind, debug_retrieve_run. fold docs.
    rewrite run_bind. unfold perform.
    rewrite <- (Nat.add_0_r (length (w ++ [Retrieve q]))), Hlen, He.
    by rewrite <- app_assoc.
  - intros response e Hr He. apply Hcatch. unfold answer_query.
    rewrite run_bind, debug_retrieve_run. fold docs.
    rewrite run_bind. unfold perform at 1.
    rewrite <- (Nat.add_0_r (length (w ++ [Retrieve q]))), Hlen, Hr.
    rewrite run_bind. unfold lift at 1. rewrite He.
    by rewrite <- app_assoc.
  - intros response answer e Hr Ha He. apply Hcatch. unfold answer_query.
    rewrite run_bind, debug_retrieve_run. fold docs. fold ctx.
    rewrite run_bind. unfold perform at 1.
    rewrite <- (Nat.add_0_r (length (w ++ [Retrieve q]))), Hlen, Hr.
    rewrite run_bind. unfold lift at 1. rewrite Ha.
    rewrite run_bind. unfold perform at 1.
    replace (length ((w ++ [Retrieve q]) ++ [Invoke q docs])) with (length w + 2)
      by (rewrite !length_app; simpl; lia).
    rewrite He. by rewrite <- !app_assoc.
Qed.

Definition sample_traceback (e : exn) : string :=
  "Traceback (most recent call last): " +:+ exn_kind e +:+ ": " +:+ exn_msg e.

(** The retriever works, the generative model cannot be reached. *)
Definition model_down : collaborators := {|
  get_relevant_documents := λ _ _,
    inr [ {| page_content := "Q: Apa itu Nawatech?" +:+ nl +:+ "A: Perusahaan teknologi" |} ];
  invoke := λ _ _ _, inl (Exn "APIConnectionError" "Connection error.");
  evaluate_response := heuristic_evaluator;
  format_exc := sample_traceback
|}.

Lemma generate_response_error_result_witness :
  generate_response (PStr "Apa itu Nawatech?") model_down [] =
    (inr (error_result model_down (Exn "APIConnectionError" "Connection error.")),
     [] ++ [ Retrieve "Apa itu Nawatech?";
             Invoke "Apa itu Nawatech?" (retrieved model_down 0 "Apa itu Nawatech?") ]).
Proof.
  destruct (generate_response_error_result model_down [] "Apa itu Nawatech?")
    as (_ & _ & _ & Hinvoke & _); [done|].
  apply Hinvoke. reflexivity.
Defined.

(** The retriever times out on the first call, the one
    [generate_response] makes for its debug log, and works afterwards;
    the chain, which runs its own retrieval when invoked, answers. *)
Definition retriever_down : collaborators := {|
  get_relevant_documents := λ n _,
    if n =? 0 then inl (Exn "ValueError" "Request error: timed out")
    else inr [ {| page_content := "Q: Apa itu Nawatech?" +:+ nl +:+ "A: Perusahaan teknologi" |} ];
  invoke := λ _ q _,
    inr (PDict {[ "input" := PStr q;
                  "context" := PList [PStr "Q: Apa itu Nawatech?"];
                  "answer" := PStr "Nawatech adalah perusahaan teknologi." ]});
  evaluate_response := heuristic_evaluator;
  format_exc := sample_traceback
|}.

(** The answer and error fields of a returned dictionary. *)
Definition answer_and_error (r : result (gmap string pyval))
    : option (option pyval * option pyval) :=
  match r with
  | inl _ => None
  | inr res => Some (res !! "answer", res !! "error")
  end.

(** C3, as stated, fails at the retrieval stage: the retriever raises,
    and what [generate_response] returns is not the error result but an
    ordinary answer with its evaluation. *)
Lemma retrieval_exception_counterexample :
  get_relevant_documents retriever_down 0 "Apa itu Nawatech?"
    = inl (Exn "ValueError" "Request error: timed out")
  ∧ match (generate_response (PStr "Apa itu Nawatech?") retriever_down []).1 with
    | inl _ => False
    | inr res =>
        res !! "answer" = Some (PStr "Nawatech adalah perusahaan teknologi.")
        ∧ res !! "error" = None
        ∧ res ≠ spec_error_result "Request error: timed out"
        ∧ res ≠ error_result retriever_down (Exn "ValueError" "Request error: timed out")
    end.
Proof.
  split; [reflexivity|].
  assert (answer_and_error (generate_response (PStr "Apa itu Nawatech?") retriever_down []).1
          = Some (Some (PStr "Nawatech adalah perusahaan teknologi."), None))
    as Hrun by (vm_compute; reflexivity).
  unfold answer_and_error in Hrun.
  destruct (generate_response (PStr "Apa itu Nawatech?") retriever_down []).1 as [e|res];
    [discriminate Hrun|].
  injection Hrun as Hanswer Herror.
  split; [exact Hanswer|]. split; [exact Herror|].
  split; intros ->; discriminate Herror.
Qed.

End QAFacts.

(** ** Parsing the model's evaluation *)

Module ParseFacts.
Import Py PyStr ResponseEvaluator.

(** The start of a reply in the format the grading prompt asks for. *)
Definition graded_reply : string :=
  "Relevance: 4" +:+ nl +:+ "Reason: The response addresses the query".

(** C7 does not hold of the code: on a reply whose first reason line is
    not preceded by another [Reason:], the indexing [[-2]] in the search
    for the reason's metric raises [IndexError], and
    [_parse_evaluation] returns nothing. *)
Theorem parse_evaluation_raises :
  _parse_evaluation graded_reply = inl (Exn "IndexError" "list index out of range").
Proof. vm_compute. reflexivity. Qed.

(** The step that raises: the text before the reason line holds no
    [Reason:], so splitting it at [Reason:] yields a single piece. *)
Lemma reason_prefix_single_piece :
  split "Reason:" ("Relevance: 4" +:+ nl) = ["Relevance: 4" +:+ nl]
  ∧ index (split "Reason: The response addresses the query" graded_reply) 0
    = inr ("Relevance: 4" +:+ nl)
  ∧ index ["Relevance: 4" +:+ nl] (-2) = inl (Exn "IndexError" "list index out of range").
Proof. vm_compute. by repeat split. Qed.

(** With the model strategy on, the exception is caught one level up and
    the heuristic evaluation is returned with the error attached. *)
Lemma model_evaluation_falls_back :
  let ev := _evaluate_with_model (λ _ _ _, inr graded_reply)
              "Apa itu Nawatech?" "Perusahaan teknologi" "" in
  method ev = "heuristic" ∧ error ev = Some "list index out of range".
Proof. vm_compute. by split. Qed.

(** A text without reason lines is decoded in full: the exception can
    only come from the search for a reason's metric. *)
Lemma parse_line_without_reason eval_text line st :
  match_reason (strip line) = None → ∃ st', parse_line eval_text line st = inr st'.
Proof.
  intros Hnone. unfold parse_line. destruct st as [scores reasons].
  destruct (decide (strip line = EmptyString)); [eauto|].
  destruct (match_score (strip line)); [eauto|]. rewrite Hnone. eauto.
Qed.

Lemma parse_lines_without_reasons eval_text lines :
  Forall (λ line, match_reason (strip line) = None) lines →
  ∀ st, ∃ st', parse_lines eval_text lines st = inr st'.
Proof.
  induction 1 as [|line lines Hline _ IH]; intros st; [by eexists|].
  destruct (parse_line_without_reason eval_text line st Hline) as [st' Hst'].
  cbn [parse_lines]. rewrite Hst'. apply IH.
Qed.

Lemma parse_without_reasons eval_text :
  Forall (λ line, match_reason (strip line) = None) (split nl eval_text) →
  ∃ parsed, _parse_evaluation eval_text = inr parsed.
Proof. intros Hlines. by apply parse_lines_without_reasons. Qed.

(** Score lines alone are decoded, and lines that match nothing are
    skipped. *)
Lemma parse_scores_only :
  _parse_evaluation ("Relevance: 4.5" +:+ nl +:+ "not a score" +:+ nl +:+ "Overall: 3")
  = inr ({[ "relevance" := (45 # 10)%Q; "overall" := (3 # 1)%Q ]}, ∅).
Proof. vm_compute. reflexivity. Qed.

End ParseFacts.

(** ** Arithmetic of the scores *)

Module FloatFacts.
Import Py.
Local Open Scope Q_scope.

Lemma of_int_nonneg (n : nat) : 0 <= of_int n.
Proof. unfold of_int, Qle. simpl. lia. Qed.

Lemma of_int_pos (n : nat) : (0 < n)%nat → 0 < of_int n.
Proof. intros Hn. unfold of_int, Qlt. simpl. lia. Qed.

Lemma of_int_le (a b : nat) : (a ≤ b)%nat → of_int a <= of_int b.
Proof. intros Hab. unfold of_int, Qle. simpl. lia. Qed.

(** A part over the whole, scaled to five and capped, lies between 0
    and 5, and is the capped quotient in whichever order the product is
    taken. *)
Lemma scaled_ratio (a b : nat) :
  (a ≤ b)%nat → (0 < b)%nat →
  0 <= Qmin (of_int a / of_int b * 5) 5 <= 5
  ∧ Qmin (of_int a / of_int b * 5) 5 == Qmin (5 * of_int a / of_int b) 5.
Proof.
  intros Hab Hb. pose proof (of_int_nonneg a) as Ha. pose proof (of_int_pos b Hb) as Hb'.
  assert (0 <= of_int a / of_int b) as Hdiv.
  { apply Qle_shift_div_l; [done|]. by rewrite Qmult_0_l. }
  split; [split|].
  - apply Q.min_glb; [|done]. apply Qmult_le_0_compat; [exact Hdiv|done].
  - apply Q.le_min_r.
  - apply Q.min_compat; [|reflexivity]. field. intros Hz. rewrite Hz in Hb'.
    by apply Qlt_irrefl in Hb'.
Qed.

Lemma round_half_even_range (y : Q) (lo hi : Z) :
  inject_Z lo <= y <= inject_Z hi →
  (lo ≤ round_half_even y ≤ hi)%Z.
Proof.
  intros [Hlo Hhi]. unfold round_half_even.
  pose proof (Qfloor_le y) as Hf. pose proof (Qlt_floor y) as Hf'.
  rewrite inject_Z_plus in Hf'. change (inject_Z 1) with 1 in Hf'.
  assert (lo ≤ Qfloor y)%Z as Hlo'.
  { rewrite <- (Qfloor_Z lo). by apply Qfloor_resp_le. }
  assert (Qfloor y ≤ hi)%Z as Hhi'.
  { rewrite Zle_Qle. lra. }
  destruct (y - inject_Z (Qfloor y) ?= 1 # 2) eqn:Hc.
  - apply Qeq_alt in Hc.
    assert (Qfloor y < hi)%Z.
    { rewrite Zlt_Qlt. lra. }
    destruct (Z.even (Qfloor y)); lia.
  - lia.
  - apply Qgt_alt in Hc.
    assert (Qfloor y < hi)%Z.
    { rewrite Zlt_Qlt. lra. }
    lia.
Qed.

Lemma round2_hundredths (x : Q) : round2 x == round_half_even (x * 100) # 100.
Proof. unfold round2. by rewrite (Qmake_Qdiv _ 100). Qed.

Lemma round2_proper (x y : Q) : x == y → round2 x = round2 y.
Proof.
  intros Hxy. unfold round2, round_half_even.
  assert (x * 100 == y * 100) as H100 by (by rewrite Hxy).
  rewrite (Qfloor_comp _ _ H100). set (f := Qfloor (y * 100)).
  assert ((x * 100 - inject_Z f ?= 1 # 2) = (y * 100 - inject_Z f ?= 1 # 2)) as ->; [|done].
  apply Qcompare_comp; [|reflexivity]. by rewrite H100.
Qed.

End FloatFacts.

(** ** The heuristic evaluation *)

Module EvaluatorFacts.
Import Py PyStr ResponseEvaluator.

(** The keyword set of a text. *)
Definition keywords (text : string) : gset string := list_to_set (_extract_keywords text).

Definition word_count (response : string) : nat := length (split_ws response).

(** The number of pieces the response falls into when split at periods. *)
Definition sentence_count (response : string) : nat := length (split "." response).

(** Average number of words per sentence. *)
Definition average_words (response : string) : Q :=
  (of_int (word_count response) / of_int (sentence_count response `max` 1))%Q.

Definition relevance_of (query response : string) : Q :=
  Qmin (of_int (size (keywords query ∩ keywords response))
        / of_int (size (keywords query) `max` 1) * 5)%Q 5.

Definition completeness_of (response : string) : Q :=
  if word_count response <? 10 then 1
  else if word_count response <? 30 then 3 else 5.

Definition clarity_of (response : string) : Q :=
  if ltb (25 : Q) (average_words response) then 2
  else if ltb (15 : Q) (average_words response) then 35 # 10 else 5.

Definition accuracy_of (query response context : string) : Q :=
  Qmin (of_int (size ((keywords response ∖ keywords query) ∩ keywords context))
        / of_int (size (keywords response ∖ keywords query) `max` 1) * 5)%Q 5.

(** The four sub-scores as they sit in the dictionary before the
    overall score is written. *)
Definition sub_scores (query response context : string) : gmap string float :=
  <[ "accuracy" := accuracy_of query response context ]>
    (<[ "clarity" := clarity_of response ]>
       (<[ "completeness" := completeness_of response ]>
          (<[ "relevance" := relevance_of query response ]>
             ({[ "relevance" := 0 : Q; "completeness" := 0 : Q; "clarity" := 0 : Q;
                 "accuracy" := 0 : Q; "overall" := 0 : Q ]} : gmap string float)))).

Implicit Types (query response context : string).

Lemma scores_normal_form query response context :
  scores (_evaluate_heuristic query response context) =
  <[ "overall" := round2 (weighted_sum (sub_scores query response context)) ]>
    (sub_scores query response context).
Proof.
  unfold _evaluate_heuristic, sub_scores, completeness_of, clarity_of, average_words,
    relevance_of, accuracy_of, word_count, sentence_count, keywords.
  destruct (length (split_ws response) <? 10); [|destruct (length (split_ws response) <? 30)];
    (destruct (ltb (25 : Q) _); [|destruct (ltb (15 : Q) _)]); reflexivity.
Qed.

Lemma sub_scores_lookup query response context :
  sub_scores query response context !! "relevance" = Some (relevance_of query response)
  ∧ sub_scores query response context !! "completeness" = Some (completeness_of response)
  ∧ sub_scores query response context !! "clarity" = Some (clarity_of response)
  ∧ sub_scores query response context !! "accuracy"
    = Some (accuracy_of query response context).
Proof.
  unfold sub_scores. by repeat split.
Qed.

Lemma weighted_sum_sub_scores query response context :
  weighted_sum (sub_scores query response context) =
  (0 + relevance_of query response * (3 # 10) + completeness_of response * (2 # 10)
   + clarity_of response * (2 # 10) + accuracy_of query response context * (3 # 10))%Q.
Proof.
  reflexivity.
Qed.

Lemma completeness_cases response :
  ((word_count response < 10)%nat → completeness_of response = 1%Q)
  ∧ ((10 ≤ word_count response < 30)%nat → completeness_of response = 3%Q)
  ∧ ((30 ≤ word_count response)%nat → completeness_of response = 5%Q)
  ∧ (0 <= completeness_of response <= 5)%Q.
Proof.
  unfold completeness_of.
  destruct (Nat.ltb_spec (word_count response) 10);
    [|destruct (Nat.ltb_spec (word_count response) 30)];
    (repeat split; try done; try lia).
Qed.

Lemma ltb_lt (x y : Q) : ltb x y = true ↔ (x < y)%Q.
Proof.
  unfold ltb. rewrite negb_true_iff, <- not_true_iff_false, Qle_bool_iff.
  split; [apply Qnot_le_lt|apply Qlt_not_le].
Qed.

Lemma clarity_cases response :
  ((25 < average_words response)%Q → clarity_of response = 2%Q)
  ∧ ((15 < average_words response <= 25)%Q → clarity_of response = (35 # 10)%Q)
  ∧ ((average_words response <= 15)%Q → clarity_of response = 5%Q)
  ∧ (0 <= clarity_of response <= 5)%Q.
Proof.
  unfold clarity_of.
  destruct (ltb (25 : Q) (average_words response)) eqn:H25;
    [|destruct (ltb (15 : Q) (average_words response)) eqn:H15].
  - apply ltb_lt in H25. repeat split; try done; intros; exfalso; lra.
  - apply ltb_lt in H15. apply not_true_iff_false in H25. rewrite ltb_lt in H25.
    repeat split; try done; intros; exfalso; lra.
  - apply not_true_iff_false in H25, H15. rewrite ltb_lt in H25, H15.
    repeat split; try done; intros; exfalso; lra.
Qed.

Lemma relevance_bounds query response :
  (0 <= relevance_of query response <= 5)%Q
  ∧ (relevance_of query response ==
     Qmin (5 * of_int (size (keywords query ∩ keywords response))
           / of_int (size (keywords query) `max` 1)) 5)%Q.
Proof.
  apply FloatFacts.scaled_ratio; [|lia].
  etrans; [apply (subseteq_size _ (keywords query)), intersection_subseteq_l|lia].
Qed.

Lemma accuracy_bounds query response context :
  (0 <= accuracy_of query response context <= 5)%Q
  ∧ (accuracy_of query response context ==
     Qmin (5 * of_int (size ((keywords response ∖ keywords query) ∩ keywords context))
           / of_int (size (keywords response ∖ keywords query) `max` 1)) 5)%Q.
Proof.
  apply FloatFacts.scaled_ratio; [|lia].
  etrans; [apply (subseteq_size _ (keywords response ∖ keywords query)),
            intersection_subseteq_l|lia].
Qed.

(** One evaluation, computed. *)
Lemma evaluation_example :
  let s := scores (_evaluate_heuristic
                     "What is Nawatech company"
                     "Nawatech is a technology company. It builds software"
                     "Q: What is Nawatech A: Nawatech builds technology") in
  s !! "relevance" = Some (10 # 3)%Q ∧ s !! "completeness" = Some 1%Q
  ∧ s !! "clarity" = Some 5%Q ∧ s !! "accuracy" = Some (10 # 3)%Q
  ∧ s !! "overall" = Some (320 # 100)%Q.
Proof. vm_compute. by repeat split. Qed.

End EvaluatorFacts.

(** ** Sign, size and order of binary64 results *)

Module Binary64Facts.
Import Binary64.





Section rounding.
Local Open Scope Z_scope.














End rounding.






End Binary64Facts.

(** ** The heuristic evaluation in Python's arithmetic *)

Module HeuristicFacts.
Import Binary64 Unicode HeuristicEvaluator Binary64Facts.

Section facts.
Context {db : CharacterDatabase} (version : summation).

Implicit Types (query response context : str).

(** The keyword set of a text. *)
Definition keyword_set (text : str) : gset str := list_to_set (_extract_keywords text).



(** A share [part / whole] scaled to five and capped at five. *)
Definition capped_share (part whole : nat) : float :=
  min (mul (truediv part (Pos.of_nat (whole `max` 1))) (of_int 5)) (decimal 50 1).

Definition relevance_score query response : float :=
  capped_share (size (keyword_set query ∩ keyword_set response)) (size (keyword_set query)).



Definition accuracy_score query response context : float :=
  capped_share (size ((keyword_set response ∖ keyword_set query) ∩ keyword_set context))
               (size (keyword_set response ∖ keyword_set query)).







End facts.

(** Evaluations computed, over the Latin-1 part of the character
    database. The sub-scores of the first are 1.25, 1, 5 and 0, whose
    weighted sum as numbers is 1.575; the floats add up to just below
    it. *)
Lemma evaluation_below_tie (version : summation) :
  let s := scores (_evaluate_heuristic (db := latin1) version
                     (of_string "alpha beta gamma delta") (of_string "alpha zzz") []) in
  s !! "relevance" = Some (decimal 125 2) ∧ s !! "completeness" = Some (decimal 10 1)
  ∧ s !! "clarity" = Some (decimal 50 1) ∧ s !! "accuracy" = Some zero
  ∧ s !! "overall" = Some (decimal 157 2).
Proof. destruct version; vm_compute; by repeat split. Qed.

(** The two ways of summing can differ in the last digit of the overall
    score. *)
Lemma evaluation_depends_on_sum :
  let overall version :=
    scores (_evaluate_heuristic (db := latin1) version
              (of_string "alpha beta gamma")
              (of_string "alpha beta delta epsilon zeta theta")
              (of_string "delta")) !! "overall" in
  overall Sequential = Some (decimal 258 2) ∧ overall Compensated = Some (decimal 257 2).
Proof. vm_compute. by split. Qed.

(** Letters beyond ASCII are word characters: the keyword_set of
    [Café déjà vu]. *)
Lemma keywords_beyond_ascii :
  _extract_keywords (db := latin1) [67; 97; 102; 233; 32; 100; 233; 106; 224; 32; 118; 117]%N
  = [[99; 97; 102; 233]; [100; 233; 106; 224]]%N.
Proof. by vm_compute. Qed.

End HeuristicFacts.

(** * Further properties of the code *)

(** ** The remote provider: construction and single queries *)

Module Construction.
Import Py PyStr Eff Net CustomLocalEmbeddings.

(** [s.rstrip(c)] for a one-character [c]. *)
Fixpoint rstrip_char (c : ascii) (s : string) : string :=
  match s with
  | EmptyString => EmptyString
  | String a s' =>
      match rstrip_char c s' with
      | EmptyString => if decide (a = c) then EmptyString else String a EmptyString
      | r => String a r
      end
  end.

(** The constructor of [CustomLocalEmbeddings] with all its arguments. *)
Definition __init__ (base_url api_key model : string) (dimensions : option Z)
    (encoding_format : string) : t :=
  Make (rstrip_char "/" base_url) api_key model dimensions encoding_format.

End Construction.

Module EmbeddingMore.
Import Py PyStr Eff Net CustomLocalEmbeddings Construction EmbeddingFacts.

Implicit Types (texts : list string) (self : t) (srv : server) (w : list request).

Lemma rstrip_char_snoc c s : rstrip_char c (s +:+ String c EmptyString) = rstrip_char c s.
Proof.
  induction s as [|a s IH]; simpl.
  - by rewrite decide_True.
  - by rewrite IH.
Qed.

Lemma rstrip_char_no_trailing c s r : rstrip_char c s ≠ r +:+ String c EmptyString.
Proof.
  revert r. induction s as [|a s IH]; intros r; simpl.
  - by destruct r.
  - destruct (rstrip_char c s) as [|b t] eqn:Hr.
    + destruct (decide (a = c)) as [->|Hne]; [by destruct r|].
      destruct r as [|a' r']; simpl; [intros [= ?]; by subst|].
      intros [= _ Heq]. by destruct r'.
    + destruct r as [|a' r']; simpl; [by intros [=]|].
      intros [= _ Heq]. by apply (IH r').
Qed.

(** X1: a base URL given with or without a trailing slash yields the same
    provider, and so the same endpoint; the stored base URL never ends in
    a slash. *)
Theorem base_url_trailing_slash base api_key model dimensions encoding_format :
  __init__ (base +:+ "/") api_key model dimensions encoding_format
    = __init__ base api_key model dimensions encoding_format
  ∧ embeddings_url (__init__ (base +:+ "/") api_key model dimensions encoding_format)
    = rstrip_char "/" base +:+ "/embeddings"
  ∧ ∀ prefix, base_url (__init__ base api_key model dimensions encoding_format)
              ≠ prefix +:+ "/".
Proof.
  unfold __init__, embeddings_url. cbn [base_url].
  rewrite (rstrip_char_snoc "/" base). repeat split.
  intros prefix. apply rstrip_char_no_trailing.
Qed.

Lemma request_inputs self texts :
  (λ r, p_input (req_json r)) <$>
    ((λ j, request_of self (batch_at texts j)) <$> seq 0 (batches texts))
  = batch_at texts <$> seq 0 (batches texts).
Proof. rewrite <- list_fmap_compose. by apply list_fmap_ext. Qed.

(** X2: whatever the service does, [embed_documents] does not raise; it
    sends [ceil(n / 3)] requests, all to the provider's endpoint with its
    model and settings, each carrying between one and three texts, and the
    texts of the requests, in the order sent, are exactly the input. *)
Theorem embed_documents_requests self srv w texts :
  ∃ out requests,
    embed_documents self texts srv w = (inr out, w ++ requests)
    ∧ length requests = (length texts + 2) / 3
    ∧ concat ((λ r, p_input (req_json r)) <$> requests) = texts
    ∧ Forall (λ r, 1 ≤ length (p_input (req_json r)) ≤ 3
                   ∧ req_url r = embeddings_url self
                   ∧ req_authorization r = "Bearer " +:+ api_key self
                   ∧ p_model (req_json r) = model self
                   ∧ p_encoding_format (req_json r) = encoding_format self
                   ∧ p_dimensions (req_json r) = dimensions self) requests.
Proof.
  do 2 eexists. split; [apply embed_documents_run|].
  split; [by rewrite length_fmap, length_seq|].
  split; [rewrite request_inputs; apply concat_batches|].
  apply Forall_fmap, Forall_forall. intros j Hj.
  apply elem_of_seq in Hj. destruct (batch_sizes texts j) as [Hsize _]; [lia|].
  repeat split; simpl; lia.
Qed.

(** X3: when every request fails, the result is one zero vector per
    text. *)
Theorem embed_documents_all_failed self srv w texts :
  (∀ n req, ∃ e, srv n req = Failed e) →
  ∃ w', embed_documents self texts srv w
        = (inr (replicate (length texts) (zero_vector self)), w').
Proof.
  intros Hdead. eexists. rewrite embed_documents_run. f_equal. f_equal.
  assert (one_entry_per_input srv) as Hwf.
  { intros n req r Hr. destruct (Hdead n req) as [e He]. congruence. }
  destruct (embed_documents_slots self srv w texts Hwf) as [Hlen Hlook].
  apply list_eq. intros i. destruct (decide (i < length texts)) as [Hi|Hi].
  - etrans; [apply (Hlook i Hi)|]. unfold chunk_output.
    destruct (Hdead (length w + i / 3) (request_of self (batch_at texts (i / 3)))) as [e ->].
    rewrite !lookup_replicate_2; [done|lia|].
    rewrite length_batch_at. by apply mod3_lt_batch.
  - rewrite !lookup_ge_None_2; [done|rewrite length_replicate; lia|lia].
Qed.

Lemma embed_documents_all_failed_witness :
  (embed_documents sample_provider ["a"; "b"; "c"; "d"] VectorStoreFacts.dead_server []).1
  = inr (replicate 4 (replicate 384 (0 : Q))).
Proof.
  destruct (embed_documents_all_failed sample_provider VectorStoreFacts.dead_server []
              ["a"; "b"; "c"; "d"]) as [w' Hrun].
  - intros n req. eexists. reflexivity.
  - rewrite Hrun. reflexivity.
Defined.

(** X4: [embed_query] sends the same single request as [embed_documents]
    does for a one-element list, but treats failure differently: it
    raises the exception of the request, where [embed_documents] returns a
    zero vector. *)
Theorem embed_query_raises self srv w text e :
  srv (length w) (request_of self [text]) = Failed e →
  embed_query self text srv w = (inl e, w ++ [request_of self [text]])
  ∧ embed_documents self [text] srv w
    = (inr [zero_vector self], w ++ [request_of self [text]]).
Proof.
  intros Hfail. split.
  - unfold embed_query, _make_embedding_request, post. rewrite run_bind. unfold perform.
    fold (request_of self [text]). by rewrite Hfail.
  - rewrite embed_documents_run. cbn. unfold chunk_output.
    rewrite Nat.add_0_r. change (batch_at [text] 0) with [text]. by rewrite Hfail.
Qed.

Lemma embed_query_raises_witness :
  embed_query sample_provider "Test embedding" VectorStoreFacts.dead_server []
  = (inl (Exn "ValueError" "Request error: connection refused"),
     [] ++ [request_of sample_provider ["Test embedding"]]).
Proof.
  apply (embed_query_raises sample_provider VectorStoreFacts.dead_server []
           "Test embedding" (Exn "ValueError" "Request error: connection refused")).
  reflexivity.
Defined.

End EmbeddingMore.

(** ** The vector store: provider selection, start-up and retriever *)

Module Providers.
Import Py Eff Net.

(** langchain's [OpenAIEmbeddings]: a provider known only through the
    two methods of the [Embeddings] interface. *)
Record OpenAIEmbeddings := {
  openai_embed_documents : list string → Net.M (list (list float));
  openai_embed_query : string → Net.M (list float)
}.

#[export] Instance OpenAIEmbeddings_Embeddings : Embeddings OpenAIEmbeddings := {
  embed_documents := openai_embed_documents;
  embed_query := openai_embed_query
}.

(** What [self.embeddings] of a [VectorStore] can be. *)
Inductive provider :=
| Remote (c : CustomLocalEmbeddings.t)
| Managed (o : OpenAIEmbeddings).

#[export] Instance provider_Embeddings : Embeddings provider := {
  embed_documents p :=
    match p with
    | Remote c => CustomLocalEmbeddings.embed_documents c
    | Managed o => openai_embed_documents o
    end;
  embed_query p :=
    match p with
    | Remote c => CustomLocalEmbeddings.embed_query c
    | Managed o => openai_embed_query o
    end
}.

(** Truth value of what [os.getenv] returned. *)
Definition env_truthy (v : option string) : bool :=
  match v with
  | None => false
  | Some s => negb (bool_decide (s = EmptyString))
  end.

(** [VectorStore.__init__]: [getenv] is the process environment and
    [openai] the object [OpenAIEmbeddings()] constructs. *)
Definition __init__ (getenv : string → option string) (openai : OpenAIEmbeddings)
    : VectorStore.t provider :=
  let base_url := getenv "EMBEDDING_BASE_URL" in
  let api_key := getenv "EMBEDDING_API_KEY" in
  let model_name := default "ebbge-v2" (getenv "EMBEDDING_MODEL") in
  let embeddings :=
    if env_truthy base_url && env_truthy api_key
    then Remote (Construction.__init__ (default EmptyString base_url)
                   (default EmptyString api_key) model_name None "float")
    else Managed openai in
  VectorStore.Make embeddings None.

(** The arguments [get_retriever] passes to [as_retriever]. *)
Record retriever := Retriever {
  search_type : string;
  k : nat;
  fetch_k : nat
}.

Definition get_retriever {E} (self : VectorStore.t E) : option retriever :=
  match VectorStore.vectorstore self with
  | Some _ => Some (Retriever "mmr" Config.TOP_K (Config.TOP_K * 10))
  | None => None
  end.

End Providers.

Module VectorStoreMore.
Import Py Eff Net VectorStore Providers EmbeddingFacts.

Implicit Types (c : CustomLocalEmbeddings.t) (srv : server) (w : list request)
  (documents : list string).

(** What [embed_documents] returns and the requests it leaves behind. *)
Definition embed_documents_outcome c documents srv w
    : list (list float) * list request :=
  (concat ((λ j, chunk_output c srv (length w + j) (batch_at documents j))
             <$> seq 0 (batches documents)),
   w ++ ((λ j, request_of c (batch_at documents j)) <$> seq 0 (batches documents))).

Lemma embed_query_world c text srv w :
  ∃ r, CustomLocalEmbeddings.embed_query c text srv w = (r, w ++ [request_of c [text]]).
Proof.
  unfold CustomLocalEmbeddings.embed_query, CustomLocalEmbeddings._make_embedding_request, post.
  rewrite run_bind. unfold perform. fold (request_of c [text]).
  destruct (srv (length w) _) as [e|r]; [by eexists|].
  destruct (data r); by eexists.
Qed.

Lemma add_texts_remote c documents srv w :
  add_texts (Remote c) {| store := [] |} documents srv w =
  (inr {| store := zip documents (embed_documents_outcome c documents srv w).1 |},
   (embed_documents_outcome c documents srv w).2).
Proof.
  unfold add_texts. rewrite run_bind.
  change (embed_documents (Remote c) documents srv w)
    with (CustomLocalEmbeddings.embed_documents c documents srv w).
  by rewrite embed_documents_run.
Qed.

(** [initialize] on a store with the remote provider, case by case. *)
Lemma initialize_remote c vs0 documents srv w :
  initialize (Make (Remote c) vs0) documents srv w =
  match CustomLocalEmbeddings.embed_query c "Test embedding" srv w with
  | (inl _, w1) => (inr (false, Make (Remote c) vs0), w1)
  | (inr _, w1) =>
      (inr (true, Make (Remote c)
                    (Some {| store := zip documents
                                        (embed_documents_outcome c documents srv w1).1 |})),
       (embed_documents_outcome c documents srv w1).2)
  end.
Proof.
  unfold initialize, try_except. rewrite run_bind. unfold try_except. rewrite run_bind.
  change (embed_query (embeddings (Make (Remote c) vs0)) "Test embedding" srv w)
    with (CustomLocalEmbeddings.embed_query c "Test embedding" srv w).
  destruct (CustomLocalEmbeddings.embed_query c "Test embedding" srv w) as [[e|v] w1];
    [reflexivity|].
  cbn [embeddings]. unfold ret at 1. rewrite run_bind, add_texts_remote. reflexivity.
Qed.

(** An environment variable is set to something other than the empty
    string. *)
Definition env_set (v : option string) : Prop := ∃ s, v = Some s ∧ s ≠ EmptyString.

Lemma env_truthy_set v : env_truthy v = true ↔ env_set v.
Proof.
  unfold env_set. destruct v as [s|]; simpl.
  - rewrite negb_true_iff, bool_decide_eq_false. split; [eauto|]. by intros (? & [= <-] & ?).
  - split; [done|]. by intros (? & ? & ?).
Qed.

(** X5: a new [VectorStore] has no index and no retriever. It uses the
    remote provider exactly when [EMBEDDING_BASE_URL] and
    [EMBEDDING_API_KEY] are both set and not empty, and the managed
    provider otherwise. The remote provider it builds takes its model
    from [EMBEDDING_MODEL], [ebbge-v2] by default, and has no
    [dimensions], so that its zero vector has 384 entries. *)
Theorem provider_selection getenv openai :
  let self := Providers.__init__ getenv openai in
  vectorstore self = None
  ∧ get_retriever self = None
  ∧ ((∃ c, embeddings self = Remote c)
     ↔ env_set (getenv "EMBEDDING_BASE_URL") ∧ env_set (getenv "EMBEDDING_API_KEY"))
  ∧ (embeddings self = Managed openai
     ↔ ¬ (env_set (getenv "EMBEDDING_BASE_URL") ∧ env_set (getenv "EMBEDDING_API_KEY")))
  ∧ (∀ c, embeddings self = Remote c →
          CustomLocalEmbeddings.model c = default "ebbge-v2" (getenv "EMBEDDING_MODEL")
          ∧ Some (CustomLocalEmbeddings.api_key c) = getenv "EMBEDDING_API_KEY"
          ∧ CustomLocalEmbeddings.dimensions c = None
          ∧ CustomLocalEmbeddings.zero_vector c = replicate 384 (0 : Q)).
Proof.
  intros self. subst self. unfold Providers.__init__. cbn [vectorstore embeddings].
  rewrite <- !env_truthy_set, <- andb_true_iff.
  destruct (env_truthy (getenv "EMBEDDING_BASE_URL") && env_truthy (getenv "EMBEDDING_API_KEY"))
    eqn:Hboth.
  - apply andb_true_iff in Hboth as [_ Hkey]. apply env_truthy_set in Hkey as (key & Hkey & _).
    split; [done|]. split; [done|]. split; [split; eauto|].
    split; [split; [by intros [=]|by intros Hne]|].
    intros c [= <-]. cbn. by rewrite Hkey.
  - split; [done|]. split; [done|]. split; [split; [by intros [c [=]]|by intros [=]]|].
    split; [split; [by intros _ [=]|done]|]. by intros c [=].
Qed.

(** X6: with the remote provider, a service that keeps the endpoint
    contract and a probe that succeeds, [initialize] returns [True] and
    the index holds every document, in order, each with one vector;
    whatever index there was before is replaced. One request is made for
    the probe and one per batch of three documents. *)
Theorem initialize_indexes_all c vs0 documents srv w v w1 :
  one_entry_per_input srv →
  CustomLocalEmbeddings.embed_query c "Test embedding" srv w = (inr v, w1) →
  ∃ vectors w',
    initialize (Make (Remote c) vs0) documents srv w
      = (inr (true, Make (Remote c) (Some {| store := zip documents vectors |})), w')
    ∧ length vectors = length documents
    ∧ (zip documents vectors).*1 = documents
    ∧ length w' = length w + 1 + (length documents + 2) / 3.
Proof.
  intros Hwf Hprobe. do 2 eexists. split.
  { rewrite initialize_remote, Hprobe. reflexivity. }
  destruct (embed_query_world c "Test embedding" srv w) as [r Hr].
  rewrite Hprobe in Hr. injection Hr as _ ->.
  destruct (embed_documents_slots c srv (w ++ [request_of c ["Test embedding"]])
              documents Hwf) as [Hlen _].
  cbn [embed_documents_outcome fst snd]. split; [exact Hlen|]. split.
  - apply fst_zip. rewrite Hlen. done.
  - rewrite !length_app, length_fmap, length_seq. unfold batches. cbn [length]. lia.
Qed.

Lemma initialize_indexes_all_witness :
  ∃ vectors w',
    initialize (Make (Remote sample_provider) None) ["Q: a"; "Q: b"; "Q: c"; "Q: d"]
      flaky_server []
      = (inr (true, Make (Remote sample_provider)
                      (Some {| store := zip ["Q: a"; "Q: b"; "Q: c"; "Q: d"] vectors |})), w')
    ∧ length vectors = 4.
Proof.
  destruct (initialize_indexes_all sample_provider None ["Q: a"; "Q: b"; "Q: c"; "Q: d"]
              flaky_server [] [1; 2]%Q [request_of sample_provider ["Test embedding"]]
              flaky_server_contract) as (vectors & w' & Hrun & Hlen & _).
  - reflexivity.
  - exists vectors, w'. split; [exact Hrun|exact Hlen].
Defined.

(** X7: with the remote provider [initialize] never raises, and its
    answer tells whether a retriever can be had afterwards: it is [True]
    exactly when the probe returned a vector, whether or not any batch of
    documents could be embedded, and then [get_retriever] hands out the
    diversity retriever with k = 6 and fetch_k = 60; it is [False] exactly
    when [get_retriever] has nothing. *)
Theorem initialize_remote_retriever c documents srv w :
  ∃ ok self' w',
    initialize (VectorStore.init (Remote c)) documents srv w = (inr (ok, self'), w')
    ∧ (ok = true ↔ ∃ v w1, CustomLocalEmbeddings.embed_query c "Test embedding" srv w
                             = (inr v, w1))
    ∧ (ok = true ↔ get_retriever self' = Some (Retriever "mmr" 6 60))
    ∧ (ok = false ↔ get_retriever self' = None).
Proof.
  unfold VectorStore.init. rewrite initialize_remote.
  destruct (CustomLocalEmbeddings.embed_query c "Test embedding" srv w) as [[e|v] w1].
  - do 3 eexists. split; [reflexivity|]. unfold get_retriever. cbn [vectorstore].
    repeat split; try done. by intros (? & ? & ?).
  - do 3 eexists. split; [reflexivity|]. unfold get_retriever. cbn [vectorstore].
    repeat split; try done. eauto.
Qed.

(** X8: with any provider, when the probe succeeds and embedding the
    documents then raises, [initialize] returns [False], but the store
    object created before the documents were added stays in place, so
    [get_retriever] still hands out a retriever. *)
Theorem initialize_add_texts_failure `{Embeddings E} (self : VectorStore.t E)
    documents srv w v w1 e w2 :
  embed_query (embeddings self) "Test embedding" srv w = (inr v, w1) →
  embed_documents (embeddings self) documents srv w1 = (inl e, w2) →
  ∃ self',
    initialize self documents srv w = (inr (false, self'), w2)
    ∧ embeddings self' = embeddings self
    ∧ get_retriever self' = Some (Retriever "mmr" 6 60).
Proof.
  intros Hprobe Hdocs. eexists. split.
  { unfold initialize, try_except. rewrite run_bind. unfold try_except.
    rewrite run_bind, Hprobe. unfold ret at 1. rewrite run_bind.
    unfold add_texts. rewrite run_bind, Hdocs. reflexivity. }
  split; reflexivity.
Qed.

(** A managed provider that answers single queries and rejects bulk
    requests. *)
Definition bulk_limited : OpenAIEmbeddings := {|
  openai_embed_documents := λ _, raise (Exn "RateLimitError" "Rate limit reached");
  openai_embed_query := λ _, mret [1; 2; 3]%Q
|}.

Lemma initialize_add_texts_failure_witness :
  ∃ self',
    initialize (VectorStore.init (Managed bulk_limited)) ["Q: a"] VectorStoreFacts.dead_server []
      = (inr (false, self'), [])
    ∧ get_retriever self' = Some (Retriever "mmr" 6 60).
Proof.
  destruct (initialize_add_texts_failure (VectorStore.init (Managed bulk_limited)) ["Q: a"]
              VectorStoreFacts.dead_server [] [1; 2; 3]%Q [] (Exn "RateLimitError" "Rate limit reached") [])
    as (self' & Hrun & _ & Hget); [reflexivity|reflexivity|].
  exists self'. split; [exact Hrun|exact Hget].
Defined.

End VectorStoreMore.

(** ** The answer generator: results, calls and the evaluation context *)

Module QAMore.
Import Py PyStr Eff QAChain QAFacts.

Implicit Types (self : collaborators) (w : list call) (q : string).

(** Copying the other fields never touches a key the result already
    has. *)
Lemma pass_through_union (fields result : gmap string pyval) :
  is_Some (result !! "answer") → pass_through fields result = result ∪ fields.
Proof.
  intros Hanswer. unfold pass_through.
  apply (map_fold_weak_ind (λ r m, r = result ∪ m)).
  - by rewrite (right_id_L ∅ (∪)).
  - intros key value m r Hfresh ->. case_decide as Hcopy.
    + destruct Hcopy as [_ Hnone]. apply lookup_union_None in Hnone as [Hnone _].
      by rewrite insert_union_r.
    + apply map_eq. intros k. rewrite !lookup_union.
      destruct (decide (k = key)) as [->|Hne]; [|by rewrite lookup_insert_ne].
      rewrite lookup_insert_eq, Hfresh.
      destruct (result !! key) as [x|] eqn:Hres; [done|]. exfalso. apply Hcopy.
      split; [|by rewrite lookup_union, Hres, Hfresh].
      intros ->. rewrite Hres in Hanswer. by destruct Hanswer.
Qed.

(** X9: when the chain answers with a dictionary and the evaluator
    returns, the result holds the chain's answer (or the text
    [No answer generated] if the chain gave none), the evaluator's
    evaluation, and every other field of the chain's response unchanged.
    A field of the response called [evaluation] does not replace the
    evaluator's. Retriever, chain and evaluator are called once each, in
    that order. *)
Theorem generate_response_success self w q d evaluation :
  q ≠ EmptyString →
  let docs := retrieved self (length w) q in
  let ctx := _format_docs_for_evaluation docs in
  let answer := default (PStr "No answer generated") (d !! "answer") in
  invoke self (length w + 1) q docs = inr (PDict d) →
  evaluate_response self (length w + 2) q answer ctx = inr evaluation →
  ∃ res,
    generate_response (PStr q) self w
      = (inr res, w ++ [Retrieve q; Invoke q docs; Evaluate q answer ctx])
    ∧ res !! "answer" = Some answer
    ∧ res !! "evaluation" = Some evaluation
    ∧ ∀ key, key ≠ "answer" → key ≠ "evaluation" → res !! key = d !! key.
Proof.
  intros Hq docs ctx answer Hinvoke Heval.
  exists ({[ "answer" := answer; "evaluation" := evaluation ]} ∪ d). split.
  { rewrite valid_query_run by done. apply run_try_ok. unfold answer_query.
    rewrite run_bind, debug_retrieve_run. fold docs. fold ctx.
    rewrite run_bind. unfold perform at 1.
    replace (length (w ++ [Retrieve q])) with (length w + 1)
      by (rewrite length_app; simpl; lia).
    rewrite Hinvoke, run_bind. unfold lift at 1. cbn [get_answer]. fold answer.
    rewrite run_bind. unfold perform at 1.
    replace (length ((w ++ [Retrieve q]) ++ [Invoke q docs])) with (length w + 2)
      by (rewrite !length_app; simpl; lia).
    rewrite Heval, run_bind. unfold lift at 1. cbn [items].
    rewrite run_ret, pass_through_union by (by rewrite lookup_insert_eq).
    by rewrite <- !app_assoc. }
  split; [by rewrite lookup_union, lookup_insert_eq; destruct (d !! "answer")|].
  split.
  { rewrite lookup_union, lookup_insert_ne, lookup_singleton_eq by done.
    by destruct (d !! "evaluation"). }
  intros key Ha He.
  rewrite lookup_union, lookup_insert_ne, lookup_singleton_ne by done.
  by destruct (d !! key).
Qed.

(** The chain answers with its input, the documents' count and an
    evaluation of its own, but with no answer. *)
Definition answerless_chain : collaborators := {|
  get_relevant_documents := λ _ _, inr [];
  invoke := λ _ q _,
    inr (PDict {[ "input" := PStr q; "evaluation" := PStr "n/a" ]});
  evaluate_response := heuristic_evaluator;
  format_exc := sample_traceback
|}.

Lemma generate_response_success_witness :
  ∃ res,
    (generate_response (PStr "Apa itu Nawatech?") answerless_chain []).1 = inr res
    ∧ res !! "answer" = Some (PStr "No answer generated")
    ∧ res !! "input" = Some (PStr "Apa itu Nawatech?")
    ∧ res !! "evaluation" ≠ Some (PStr "n/a").
Proof.
  destruct (generate_response_success answerless_chain [] "Apa itu Nawatech?"
              {[ "input" := PStr "Apa itu Nawatech?"; "evaluation" := PStr "n/a" ]}
              (evaluation_dict (ResponseEvaluator._evaluate_heuristic
                                  "Apa itu Nawatech?" "No answer generated" EmptyString)))
    as (res & Hrun & Hanswer & Heval & Hother); [done|reflexivity|reflexivity|].
  exists res. split; [by rewrite Hrun|]. split; [exact Hanswer|].
  split; [by rewrite Hother|]. rewrite Heval. discriminate.
Defined.

(** X10: for a query that passes validation, whatever the collaborators
    do, [generate_response] calls the retriever once, then the chain once,
    with the query and the documents retrieved (none if the retriever
    raised), and then the evaluator at most once; it makes no other call
    and never calls the chain a second time. *)
Theorem generate_response_calls self w q :
  q ≠ EmptyString →
  ∃ res rest,
    generate_response (PStr q) self w
      = (inr res,
         w ++ Retrieve q :: Invoke q (retrieved self (length w) q) :: rest)
    ∧ (rest = []
       ∨ ∃ answer, rest = [Evaluate q answer
                             (_format_docs_for_evaluation (retrieved self (length w) q))]).
Proof.
  intros Hq. rewrite valid_query_run by done. unfold try_except, answer_query.
  rewrite run_bind, debug_retrieve_run. set (docs := retrieved self (length w) q).
  rewrite run_bind. unfold perform at 1.
  destruct (invoke self (length (w ++ [Retrieve q])) q docs) as [e|response].
  { do 2 eexists. rewrite <- app_assoc. split; [reflexivity|by left]. }
  rewrite run_bind. unfold lift at 1.
  destruct (get_answer response) as [e|answer] eqn:Hanswer.
  { do 2 eexists. rewrite <- app_assoc. split; [reflexivity|by left]. }
  rewrite run_bind. unfold perform at 1.
  destruct (evaluate_response self _ q answer _) as [e|evaluation].
  { do 2 eexists. rewrite <- !app_assoc. split; [reflexivity|right; eauto]. }
  rewrite run_bind. unfold lift at 1.
  destruct (items response) as [e|fields].
  { do 2 eexists. rewrite <- !app_assoc. split; [reflexivity|right; eauto]. }
  do 2 eexists. rewrite run_ret, <- !app_assoc. split; [reflexivity|right; eauto].
Qed.

Lemma generate_response_calls_witness :
  ∃ res rest,
    generate_response (PStr "Apa itu Nawatech?") model_down []
      = (inr res, [] ++ Retrieve "Apa itu Nawatech?"
                      :: Invoke "Apa itu Nawatech?" (retrieved model_down 0 "Apa itu Nawatech?")
                      :: rest).
Proof.
  destruct (generate_response_calls model_down [] "Apa itu Nawatech?")
    as (res & rest & Hrun & _); [done|].
  exists res, rest. exact Hrun.
Defined.

Lemma prefix_app (s t : string) : String.prefix s (s +:+ t) = true.
Proof.
  induction s as [|c s IH]; [by destruct t|]. simpl.
  destruct (ascii_dec c c); [exact IH|done].
Qed.

Lemma contains_unfold (sub s : string) :
  contains sub s =
  String.prefix sub s || match s with
                         | EmptyString => false
                         | String _ s' => contains sub s'
                         end.
Proof. by destruct s. Qed.

Lemma contains_refl (s : string) : contains s s = true.
Proof.
  rewrite contains_unfold. replace (String.prefix s s) with true; [done|].
  induction s as [|c s IH]; [done|]. simpl. destruct (ascii_dec c c); [exact IH|done].
Qed.

Lemma contains_here (s t : string) : contains s (s +:+ t) = true.
Proof. by rewrite contains_unfold, prefix_app. Qed.

Lemma contains_app_r (sub s t : string) :
  contains sub t = true → contains sub (s +:+ t) = true.
Proof.
  intros Ht. induction s as [|c s IH]; [done|].
  change (contains sub (String c s +:+ t))
    with (String.prefix sub (String c (s +:+ t)) || contains sub (s +:+ t)).
  by rewrite IH, orb_true_r.
Qed.

Lemma contains_join (sep : string) (l : list string) (i : nat) (x : string) :
  l !! i = Some x → contains x (join sep l) = true.
Proof.
  revert i. induction l as [|y l IH]; intros i Hi; [done|].
  destruct i as [|i]; simpl in Hi.
  - injection Hi as ->. destruct l as [|z l]; cbn [join].
    + apply contains_refl.
    + apply contains_here.
  - destruct l as [|z l]; [done|]. cbn [join].
    do 2 apply contains_app_r. by apply (IH i).
Qed.

Lemma format_from_lookup (docs : list Document) (i j : nat) (d : Document) :
  docs !! j = Some d →
  format_from i docs !! j
  = Some ("Document " +:+ pretty (i + j + 1) +:+ ":" +:+ nl +:+ page_content d +:+ nl).
Proof.
  revert i j. induction docs as [|d0 docs IH]; intros i j Hj; [done|].
  destruct j as [|j]; simpl in Hj.
  - injection Hj as ->. cbn [format_from]. by rewrite Nat.add_0_r.
  - cbn [format_from]. etrans; [apply (IH (S i) j Hj)|].
    by replace (S i + j + 1) with (i + S j + 1) by lia.
Qed.

(** X11: the context handed to the evaluator is empty when nothing was
    retrieved; otherwise it contains, for the document at position [i]
    (counting from 0), the heading [Document i+1:] followed on the next
    line by the document's full text. *)
Theorem format_docs_contains_all (docs : list Document) :
  _format_docs_for_evaluation [] = EmptyString
  ∧ ∀ i d, docs !! i = Some d →
      contains ("Document " +:+ pretty (i + 1) +:+ ":" +:+ nl +:+ page_content d +:+ nl)
               (_format_docs_for_evaluation docs) = true.
Proof.
  split; [done|]. intros i d Hi.
  destruct docs as [|d0 docs']; [done|]. unfold _format_docs_for_evaluation.
  apply (contains_join _ _ i). by rewrite (format_from_lookup _ 0 i d Hi).
Qed.

(** X12: every query that is not a non-empty string (the empty string,
    [None], a number, a list, a dictionary) gets the fixed answer
    [Invalid query input.], and no collaborator is called. *)
Theorem generate_response_rejects (query : pyval) self w :
  (∀ s, query = PStr s → s = EmptyString) →
  generate_response query self w
  = (inr {[ "answer" := PStr "Invalid query input." ]}, w).
Proof.
  intros Hquery. unfold generate_response.
  destruct query as [|s|x|l|d]; cbn [isinstance_str negb]; rewrite ?orb_true_r;
    try reflexivity.
  by rewrite (Hquery s eq_refl).
Qed.

Lemma generate_response_rejects_witness :
  generate_response (PList [PStr "Apa itu Nawatech?"]) model_down []
  = (inr {[ "answer" := PStr "Invalid query input." ]}, []).
Proof. apply generate_response_rejects. intros s [=]. Defined.

End QAMore.

(** ** The evaluator: keywords, reasons, extremes and the parser *)

Module EvaluatorMore.
Import Py PyStr ResponseEvaluator EvaluatorFacts.

(** Every character of [s] is in class [p]. *)
Fixpoint all_chars (p : ascii → bool) (s : string) : bool :=
  match s with
  | EmptyString => true
  | String c s' => p c && all_chars p s'
  end.

(** The text is ASCII: every character code is below 128. *)
Definition is_ascii (s : string) : bool := all_chars (λ c, code c <? 128) s.

(** [s.upper()] for an ASCII text [s]. *)
Definition upper : string → string := map_chars upper_char.

(** Three ASCII texts. *)
Definition ascii_query : string := "Where IS the Nawatech office".
Definition ascii_response : string := "The office is in Jakarta".
Definition ascii_context : string := "Nawatech has an OFFICE in Jakarta".

(** A digit, a lower-case letter or the underscore. *)
Definition token_char (c : ascii) : bool := isdigit c || islower c || (code c =? 95).

Lemma all_chars_snoc p s c : all_chars p (snoc s c) = all_chars p s && p c.
Proof.
  unfold snoc. induction s as [|a s IH]; simpl; [by rewrite andb_true_r|].
  by rewrite IH, andb_assoc.
Qed.

Lemma all_chars_impl (p q : ascii → bool) s :
  (∀ c, p c = true → q c = true) → all_chars p s = true → all_chars q s = true.
Proof.
  intros Hpq. induction s as [|a s IH]; simpl; [done|].
  rewrite !andb_true_iff. intros [Ha Hs]. auto.
Qed.

Lemma split_ws_go_chars p cur s :
  all_chars p cur = true →
  all_chars (λ c, isspace c || p c) s = true →
  Forall (λ word, all_chars p word = true) (split_ws_go cur s).
Proof.
  revert cur. induction s as [|c s IH]; intros cur Hcur Hs; simpl in *.
  - destruct (decide (cur = EmptyString)); [constructor|by repeat constructor].
  - apply andb_true_iff in Hs as [Hc Hs]. destruct (isspace c) eqn:Hspace.
    + destruct (decide (cur = EmptyString)); [|constructor; [done|]]; by apply IH.
    + apply IH; [|done]. rewrite all_chars_snoc, Hcur. exact Hc.
Qed.

Lemma lower_char_token c :
  (isword (lower_char c) || isspace (lower_char c)) = true →
  (isspace (lower_char c) || token_char (lower_char c)) = true.
Proof. destruct c as [[] [] [] [] [] [] [] []]; vm_compute; done. Qed.

Lemma cleaned_chars text :
  all_chars (λ c, isspace c || token_char c)
            (filter_chars (λ c, isword c || isspace c) (lower text)) = true.
Proof.
  induction text as [|c text IH]; [done|]. unfold lower in *. simpl.
  destruct (isword (lower_char c) || isspace (lower_char c)) eqn:Hkeep; [|exact IH].
  simpl. by rewrite IH, (lower_char_token c Hkeep).
Qed.

(** X13: every keyword is longer than two characters, is not a stop
    word, and consists of digits, lower-case letters and underscores
    only. *)
Theorem keywords_are_tokens text :
  Forall (λ word, 2 < String.length word
                  ∧ (word ∉ stopwords)
                  ∧ all_chars token_char word = true)
         (_extract_keywords text).
Proof.
  apply Forall_forall. intros word Hword. unfold _extract_keywords in Hword.
  apply list_elem_of_filter in Hword as [[Hstop Hlen] Hword].
  split; [exact Hlen|]. split; [exact Hstop|].
  pose proof (split_ws_go_chars token_char EmptyString _ eq_refl (cleaned_chars text)) as Hall.
  rewrite Forall_forall in Hall. by apply Hall.
Qed.

Lemma map_chars_compose (f g : ascii → ascii) s :
  map_chars f (map_chars g s) = map_chars (λ c, f (g c)) s.
Proof. induction s as [|c s IH]; simpl; [done|]. by rewrite IH. Qed.

Lemma map_chars_ext (f g : ascii → ascii) s :
  (∀ c, f c = g c) → map_chars f s = map_chars g s.
Proof. intros Hfg. induction s as [|c s IH]; simpl; [done|]. by rewrite IH, Hfg. Qed.

Lemma lower_lower_char c : lower_char (lower_char c) = lower_char c.
Proof. destruct c as [[] [] [] [] [] [] [] []]; vm_compute; done. Qed.

Lemma lower_upper_char c : lower_char (upper_char c) = lower_char c.
Proof. destruct c as [[] [] [] [] [] [] [] []]; vm_compute; done. Qed.

Lemma lower_lower text : lower (lower text) = lower text.
Proof. unfold lower. rewrite map_chars_compose. apply map_chars_ext, lower_lower_char. Qed.

Lemma lower_upper text : lower (upper text) = lower text.
Proof.
  unfold lower, upper. rewrite map_chars_compose. apply map_chars_ext, lower_upper_char.
Qed.

(** X14: on ASCII texts keyword extraction ignores case: a text, its
    lower-case form and its upper-case form have the same keywords.
    Hence the heuristic evaluation of ASCII texts is unchanged when the
    query and the context are written in upper case: no score and no
    reason changes. *)
Theorem keywords_ignore_case query response context :
  is_ascii query = true → is_ascii response = true → is_ascii context = true →
  _extract_keywords (lower query) = _extract_keywords query
  ∧ _extract_keywords (upper query) = _extract_keywords query
  ∧ _extract_keywords (upper context) = _extract_keywords context
  ∧ _evaluate_heuristic (upper query) response (upper context)
    = _evaluate_heuristic query response context.
Proof.
  intros _ _ _.
  assert (∀ t, _extract_keywords (upper t) = _extract_keywords t) as Hupper.
  { intros t. unfold _extract_keywords. by rewrite lower_upper. }
  split; [unfold _extract_keywords; by rewrite lower_lower|].
  split; [apply Hupper|]. split; [apply Hupper|].
  unfold _evaluate_heuristic. by rewrite !Hupper.
Qed.

Lemma keywords_ignore_case_witness :
  (is_ascii ascii_query = true ∧ is_ascii ascii_response = true
   ∧ is_ascii ascii_context = true)
  ∧ _extract_keywords (lower ascii_query) = _extract_keywords ascii_query
  ∧ _extract_keywords (upper ascii_query) = _extract_keywords ascii_query
  ∧ _extract_keywords (upper ascii_context) = _extract_keywords ascii_context
  ∧ _evaluate_heuristic (upper ascii_query) ascii_response (upper ascii_context)
    = _evaluate_heuristic ascii_query ascii_response ascii_context.
Proof.
  split; [by repeat split|].
  apply (keywords_ignore_case ascii_query ascii_response ascii_context); reflexivity.
Defined.

Implicit Types (query response context : string).

(** The record [_evaluate_heuristic] returns, written out. *)
Lemma evaluation_normal_form query response context :
  _evaluate_heuristic query response context =
  Evaluation
    (<[ "overall" := round2 (weighted_sum (sub_scores query response context)) ]>
       (sub_scores query response context))
    {[ "relevance" :=
         [ if ltb (relevance_of query response) (25 # 10)
           then "Response doesn't contain many key terms from the query"
           else "Response contains key terms from the query" ];
       "completeness" :=
         [ if length (split_ws response) <? 10 then "Response is too short"
           else if length (split_ws response) <? 30 then "Response is of medium length"
           else "Response has good length" ];
       "clarity" :=
         [ if ltb (25 : Q) (average_words response) then "Sentences are too long"
           else if ltb (15 : Q) (average_words response)
                then "Sentences are of moderate length"
                else "Sentences are concise" ];
       "accuracy" :=
         [ if ltb (accuracy_of query response context) (25 # 10)
           then "Response contains information not in the context"
           else "Response information is present in the context" ] ]}
    "heuristic" None None.
Proof.
  unfold _evaluate_heuristic, sub_scores, completeness_of, clarity_of, average_words,
    word_count, sentence_count.
  cbv zeta.
  match goal with
  | |- context [ltb ?a (25 # 10)] => change a with (relevance_of query response)
  end.
  destruct (length (split_ws response) <? 10);
    [|destruct (length (split_ws response) <? 30)];
    (destruct (ltb (25 : Q) _); [|destruct (ltb (15 : Q) _)]);
    cbv beta iota;
    match goal with
    | |- context [ltb (?m !!! "accuracy") (25 # 10)] =>
        change (m !!! "accuracy") with (accuracy_of query response context)
    end;
    destruct (ltb (relevance_of query response) (25 # 10));
    destruct (ltb (accuracy_of query response context) (25 # 10));
    reflexivity.
Qed.

(** X15: the heuristic evaluation gives exactly one reason for each of
    relevance, completeness, clarity and accuracy, and none for the
    overall score. The relevance reason is the favourable one exactly when
    the relevance score is at least 2.5, and likewise for accuracy. *)
Theorem heuristic_reasons query response context :
  let ev := _evaluate_heuristic query response context in
  method ev = "heuristic" ∧ error ev = None ∧ raw_evaluation ev = None
  ∧ ∃ relevance accuracy r1 r2 r3 r4,
      scores ev !! "relevance" = Some relevance
      ∧ scores ev !! "accuracy" = Some accuracy
      ∧ reasons ev = {[ "relevance" := [r1]; "completeness" := [r2];
                        "clarity" := [r3]; "accuracy" := [r4] ]}
      ∧ (r1 = "Response contains key terms from the query" ↔ (25 # 10 <= relevance)%Q)
      ∧ (r4 = "Response information is present in the context" ↔ (25 # 10 <= accuracy)%Q).
Proof.
  intros ev. subst ev. rewrite evaluation_normal_form. cbn [method error raw_evaluation].
  split; [done|]. split; [done|]. split; [done|].
  do 6 eexists. split; [reflexivity|]. split; [reflexivity|].
  cbn [reasons scores]. split; [reflexivity|].
  assert (∀ x : Q, ltb x (25 # 10) = true → ¬ (25 # 10 <= x)%Q) as Hlow.
  { intros x Hx. apply ltb_lt in Hx. by apply Qlt_not_le. }
  assert (∀ x : Q, ltb x (25 # 10) = false → (25 # 10 <= x)%Q) as Hhigh.
  { intros x Hx. apply Qnot_lt_le. rewrite <- ltb_lt. by rewrite Hx. }
  destruct (ltb (relevance_of query response) (25 # 10)) eqn:Hrel;
    destruct (ltb (accuracy_of query response context) (25 # 10)) eqn:Hacc;
    first [ apply Hlow in Hrel | apply Hhigh in Hrel ];
    first [ apply Hlow in Hacc | apply Hhigh in Hacc ];
    (split; split; first [done | intros; exfalso; auto]).
Qed.

Lemma completeness_at_least_one response : (1 <= completeness_of response)%Q.
Proof.
  unfold completeness_of. destruct (_ <? 10); [|destruct (_ <? 30)]; by compute.
Qed.

Lemma clarity_at_least_two response : (2 <= clarity_of response)%Q.
Proof.
  unfold clarity_of. destruct (ltb (25 : Q) _); [|destruct (ltb (15 : Q) _)]; by compute.
Qed.

(** X16: the overall heuristic score is never below 0.6, whatever the
    texts, because completeness is at least 1 and clarity at least 2. An
    empty answer scores exactly 1.2 overall. *)
Theorem heuristic_overall_floor query response context :
  (∃ overall, scores (_evaluate_heuristic query response context) !! "overall" = Some overall
              ∧ (6 # 10 <= overall <= 5)%Q)
  ∧ scores (_evaluate_heuristic query EmptyString context) !! "overall" = Some (120 # 100)%Q.
Proof.
  split.
  - rewrite scores_normal_form, weighted_sum_sub_scores. eexists.
    split; [by rewrite lookup_insert_eq|].
    destruct (relevance_bounds query response) as [[Hr0 Hr5] _].
    destruct (accuracy_bounds query response context) as [[Ha0 Ha5] _].
    pose proof (completeness_at_least_one response) as Hco.
    pose proof (clarity_at_least_two response) as Hcl.
    destruct (completeness_cases response) as (_ & _ & _ & _ & Hco5).
    destruct (clarity_cases response) as (_ & _ & _ & _ & Hcl5).
    set (total := (0 + relevance_of query response * (3 # 10)
                   + completeness_of response * (2 # 10)
                   + clarity_of response * (2 # 10)
                   + accuracy_of query response context * (3 # 10))%Q).
    destruct (FloatFacts.round_half_even_range (total * 100)%Q 60 500) as [Hlo Hhi].
    { change (inject_Z 60) with 60%Q. change (inject_Z 500) with 500%Q.
      unfold total. split; lra. }
    rewrite FloatFacts.round2_hundredths. unfold Qle. simpl. lia.
  - rewrite scores_normal_form, weighted_sum_sub_scores, lookup_insert_eq. f_equal.
    rewrite (FloatFacts.round2_proper _ (12 # 10)); [done|].
    assert (relevance_of query EmptyString == 0)%Q as ->.
    { unfold relevance_of. change (keywords EmptyString) with (∅ : gset string).
      rewrite (right_absorb_L ∅ (∩)), size_empty. by compute. }
    assert (accuracy_of query EmptyString context == 0)%Q as ->.
    { unfold accuracy_of. change (keywords EmptyString) with (∅ : gset string).
      rewrite empty_difference_L, (left_absorb_L ∅ (∩)), size_empty. by compute. }
    by compute.
Qed.

Lemma all_chars_app p a b : all_chars p (a +:+ b) = all_chars p a && all_chars p b.
Proof. induction a as [|c a IH]; simpl; [done|]. by rewrite IH, andb_assoc. Qed.

Lemma span_all p s : all_chars p (span p s).1 = true.
Proof.
  induction s as [|c s IH]; simpl; [done|].
  destruct (p c) eqn:Hc; [|done]. destruct (span p s) as [a b]. simpl in *.
  by rewrite Hc, IH.
Qed.

Lemma digits_value_nonneg s acc :
  all_chars isdigit s = true → (0 ≤ acc)%Z → (0 ≤ digits_value s acc)%Z.
Proof.
  revert acc. induction s as [|c s IH]; intros acc Hs Hacc; simpl in *; [done|].
  apply andb_true_iff in Hs as [Hc Hs]. apply IH; [done|].
  unfold isdigit in Hc. apply andb_true_iff in Hc as [Hlo _].
  apply Nat.leb_le in Hlo. lia.
Qed.

Lemma float_of_decimal_nonneg i f :
  all_chars isdigit i = true → all_chars isdigit f = true →
  (0 <= float_of_decimal i f)%Q.
Proof.
  intros Hi Hf. unfold float_of_decimal. apply Qle_shift_div_l.
  - change 0%Q with (inject_Z 0). rewrite <- Zlt_Qlt. apply Z.pow_pos_nonneg; lia.
  - rewrite Qmult_0_l. change 0%Q with (inject_Z 0). rewrite <- Zle_Qle.
    apply digits_value_nonneg; [|done]. by rewrite all_chars_app, Hi, Hf.
Qed.

Lemma match_label_digits label line m :
  match_label label line = Some m →
  sm_metric m = label
  ∧ all_chars isdigit (sm_int m) = true ∧ all_chars isdigit (sm_frac m) = true.
Proof.
  unfold match_label. destruct (strip_prefix (label +:+ ":") line) as [rest|]; [|done].
  simpl. destruct (span isspace rest) as [spaces rest1].
  pose proof (span_all isdigit rest1) as Hint.
  destruct (span isdigit rest1) as [i rest2]. simpl in Hint.
  destruct (decide (i = EmptyString)); [done|].
  destruct rest2 as [|c rest3]; [by intros [= <-]|].
  destruct (decide (c = "."%char)) as [->|Hc].
  - pose proof (span_all isdigit rest3) as Hfrac.
    destruct (span isdigit rest3) as [f rest4]. by intros [= <-].
  - assert (∀ r : option score_match,
              match c with
              | "."%char => r
              | _ => Some (ScoreMatch label i EmptyString)
              end = Some m →
              c ≠ "."%char → Some (ScoreMatch label i EmptyString) = Some m) as Hother.
    { intros r. destruct c as [[] [] [] [] [] [] [] []]; try done. }
    intros Hm. apply Hother in Hm; [|done]. by injection Hm as <-.
Qed.

Lemma first_match_digits labels line m :
  first_match labels line = Some m →
  sm_metric m ∈ labels
  ∧ all_chars isdigit (sm_int m) = true ∧ all_chars isdigit (sm_frac m) = true.
Proof.
  induction labels as [|label labels IH]; simpl; [done|].
  destruct (match_label label line) as [m'|] eqn:Hlabel.
  - intros [= ->]. destruct (match_label_digits _ _ _ Hlabel) as (<- & ? & ?).
    split; [apply list_elem_of_here|done].
  - intros Hm. destruct (IH Hm) as (? & ? & ?). split; [by apply list_elem_of_further|done].
Qed.

(** The keys a parsed score can be stored under. *)
Definition score_keys : list string :=
  ["relevance"; "completeness"; "clarity"; "accuracy"; "overall"].

(** The keys a parsed reason can be stored under. *)
Definition reason_keys : list string := ["relevance"; "completeness"; "clarity"; "accuracy"].

Definition well_shaped (st : gmap string float * gmap string (list string)) : Prop :=
  (∀ key value, st.1 !! key = Some value → key ∈ score_keys ∧ (0 <= value)%Q)
  ∧ (∀ key l, st.2 !! key = Some l → key ∈ reason_keys ∧ ∃ reason, l = [reason]).

Definition index_error : exn := Exn "IndexError" "list index out of range".

Lemma index_raises {A} (l : list A) i e : index l i = inl e → e = index_error.
Proof.
  unfold index. destruct (_ <? 0)%Z; [by intros [= <-]|].
  destruct (l !! _); [done|by intros [= <-]].
Qed.

Lemma attach_reason_shape metrics eval_text line reason reasons :
  metrics ⊆ reason_keys →
  (∀ key l, reasons !! key = Some l → key ∈ reason_keys ∧ ∃ r, l = [r]) →
  match attach_reason metrics eval_text line reason reasons with
  | inl e => e = index_error
  | inr reasons' => ∀ key l, reasons' !! key = Some l → key ∈ reason_keys ∧ ∃ r, l = [r]
  end.
Proof.
  intros Hsub Hshape. induction metrics as [|metric metrics IH]; simpl; [done|].
  destruct (index (split line eval_text) 0) as [e|before] eqn:Hbefore; simpl.
  { by apply index_raises in Hbefore. }
  destruct (index (split "Reason:" before) (-2)) as [e|segment] eqn:Hsegment; simpl.
  { by apply index_raises in Hsegment. }
  destruct (contains (capitalize metric) segment).
  - intros key l. rewrite lookup_insert. case_decide as Hkey.
    + intros [= <-]. subst key. split; [|eauto]. apply Hsub, list_elem_of_here.
    + apply Hshape.
  - apply IH. intros x Hx. apply Hsub. by apply list_elem_of_further.
Qed.

Lemma parse_line_shape eval_text line st :
  well_shaped st →
  match parse_line eval_text line st with
  | inl e => e = index_error
  | inr st' => well_shaped st'
  end.
Proof.
  intros [Hscores Hreasons]. unfold parse_line. destruct st as [scores reasons].
  destruct (decide (strip line = EmptyString)); [done|].
  destruct (match_score (strip line)) as [m|] eqn:Hm.
  - split; [|done]. cbn [fst]. intros key value. rewrite lookup_insert.
    destruct (first_match_digits _ _ _ Hm) as (Hlabel & Hint & Hfrac).
    case_decide as Hkey; [|apply Hscores]. intros [= <-]. subst key. split.
    + unfold score_keys.
      repeat (apply elem_of_cons in Hlabel as [->|Hlabel];
              [vm_compute; repeat first [apply list_elem_of_here|apply list_elem_of_further]|]).
      by apply not_elem_of_nil in Hlabel.
    + by apply float_of_decimal_nonneg.
  - destruct (match_reason (strip line)) as [reason|]; [|done].
    pose proof (attach_reason_shape reason_keys eval_text (strip line) reason reasons
                  (reflexivity _) Hreasons) as Hattach.
    destruct (attach_reason _ _ _ _ _) as [e|reasons']; simpl; [done|].
    split; [exact Hscores|exact Hattach].
Qed.

Lemma parse_lines_shape eval_text lines st :
  well_shaped st →
  match parse_lines eval_text lines st with
  | inl e => e = index_error
  | inr st' => well_shaped st'
  end.
Proof.
  revert st. induction lines as [|line lines IH]; intros st Hst; simpl; [done|].
  pose proof (parse_line_shape eval_text line st Hst) as Hline.
  destruct (parse_line eval_text line st) as [e|st']; simpl; [done|]. by apply IH.
Qed.

(** X17: whatever the text, [_parse_evaluation] either raises
    [IndexError] (it raises nothing else) or returns scores stored only
    under the five metric names, in lower case, none of them negative,
    and reasons stored only under the four sub-score names, one reason
    each. It puts no upper bound on a score: [Overall: 99] is read as
    99. *)
Theorem parse_evaluation_shape eval_text :
  match _parse_evaluation eval_text with
  | inl e => e = Exn "IndexError" "list index out of range"
  | inr (scores, reasons) =>
      (∀ key value, scores !! key = Some value →
         key ∈ ["relevance"; "completeness"; "clarity"; "accuracy"; "overall"]
         ∧ (0 <= value)%Q)
      ∧ (∀ key l, reasons !! key = Some l →
           key ∈ ["relevance"; "completeness"; "clarity"; "accuracy"]
           ∧ ∃ reason, l = [reason])
  end
  ∧ _parse_evaluation "Overall: 99" = inr ({[ "overall" := (99 # 1)%Q ]}, ∅).
Proof.
  split; [|by vm_compute].
  pose proof (parse_lines_shape eval_text (split nl eval_text) (∅, ∅)) as Hshape.
  unfold _parse_evaluation.
  destruct (parse_lines eval_text (split nl eval_text) (∅, ∅)) as [e|[scores reasons]].
  - apply Hshape. split; intros key x; cbn [fst snd]; by rewrite lookup_empty.
  - apply Hshape. split; intros key x; cbn [fst snd]; by rewrite lookup_empty.
Qed.

(** X18: the model strategy never raises. Either the model replied and
    its reply was parsed: then the method is [model], scores and reasons
    are the parsed ones and the reply is kept as raw evaluation. Or the
    call or the parsing raised: then the result is the heuristic
    evaluation, method [heuristic], with the exception's message attached
    as error. With the model strategy switched off the model is not
    consulted at all. *)
Theorem model_evaluation_outcomes eval_llm query response context :
  let ev := _evaluate_with_model eval_llm query response context in
  let heuristic := _evaluate_heuristic query response context in
  ((∃ text parsed,
      eval_llm query context response = inr text
      ∧ _parse_evaluation text = inr parsed
      ∧ ev = Evaluation parsed.1 parsed.2 "model" None (Some text))
   ∨ (∃ e,
        (eval_llm query context response = inl e
         ∨ ∃ text, eval_llm query context response = inr text
                   ∧ _parse_evaluation text = inl e)
        ∧ scores ev = scores heuristic ∧ reasons ev = reasons heuristic
        ∧ method ev = "heuristic" ∧ error ev = Some (exn_msg e)
        ∧ raw_evaluation ev = None))
  ∧ evaluate_response false eval_llm query response context = heuristic.
Proof.
  intros ev heuristic. split; [|done]. subst ev. unfold _evaluate_with_model.
  destruct (eval_llm query context response) as [e|text] eqn:Hllm; simpl.
  - right. exists e. split; [by left|]. subst heuristic.
    rewrite evaluation_normal_form. by repeat split.
  - destruct (_parse_evaluation text) as [e|parsed] eqn:Hparse; simpl.
    + right. exists e. split; [right; eauto|]. subst heuristic.
      rewrite evaluation_normal_form. by repeat split.
    + left. eauto.
Qed.

End EvaluatorMore.

(** ** The FAQ table, the chat history and start-up *)

Module DataLoaderMore.
Import Py DataLoader DataLoaderFacts.

Lemma missing_columns_none (cols : list string) :
  filter (λ col, col ∉ cols) ["question"; "answer"] = []
  ↔ "question" ∈ cols ∧ "answer" ∈ cols.
Proof.
  rewrite filter_cons. destruct (decide ("question" ∉ cols)) as [Hq|Hq].
  - split; [done|]. by intros [? _].
  - apply dec_stable in Hq. rewrite filter_cons.
    destruct (decide ("answer" ∉ cols)) as [Ha|Ha].
    + split; [done|]. by intros [_ ?].
    + apply dec_stable in Ha. by rewrite filter_nil.
Qed.

(** X19: [load_faq_data] returns [None] exactly when reading the file
    raised or one of the columns [question] and [answer] is absent; rows
    with missing values never make it fail. *)
Theorem load_faq_data_none read_csv :
  load_faq_data read_csv = None
  ↔ (∃ e, read_csv = inl e)
    ∨ (∃ df, read_csv = inr df ∧ ("question" ∉ columns df ∨ "answer" ∉ columns df)).
Proof.
  unfold load_faq_data. destruct read_csv as [e|df].
  { split; [eauto|done]. }
  case_bool_decide as Hmissing; cbn [negb].
  - apply missing_columns_none in Hmissing as [Hq Ha].
    split; [by destruct (negb _)|]. intros [[e [=]]|(df0 & [= <-] & [?|?])]; done.
  - split; [|done]. intros _. right. exists df. split; [done|].
    rewrite missing_columns_none in Hmissing.
    destruct (decide ("question" ∈ columns df)); [|by left].
    destruct (decide ("answer" ∈ columns df)); [|by right]. by destruct Hmissing.
Qed.

Lemma loaded_columns df df' : load_faq_data (inr df) = Some df' → columns df' = columns df.
Proof.
  unfold load_faq_data. destruct (bool_decide _); cbn [negb]; [|done].
  destruct (negb _); by intros [= <-].
Qed.

Lemma filter_none {A} (P : A → Prop) `{∀ x, Decision (P x)} (l : list A) :
  Forall (λ x, ¬ P x) l → filter P l = [].
Proof. induction 1 as [|x l Hx _ IH]; [done|]. by rewrite filter_cons_False. Qed.

(** X20: what [load_faq_data] returns is a table it accepts unchanged:
    loading is idempotent. The columns are those of the table read, and
    the rows are a sub-sequence of its rows. *)
Theorem load_faq_data_idempotent df df' :
  load_faq_data (inr df) = Some df' →
  load_faq_data (inr df') = Some df'
  ∧ columns df' = columns df
  ∧ rows df' `sublist_of` rows df.
Proof.
  intros Hload. pose proof (loaded_rows df df' Hload) as Hrows.
  pose proof (loaded_columns df df' Hload) as Hcols.
  split; [|split; [done|rewrite Hrows; apply sublist_filter]].
  assert ("question" ∈ columns df ∧ "answer" ∈ columns df) as Hpresent.
  { apply missing_columns_none. revert Hload. unfold load_faq_data.
    case_bool_decide; [done|]. by cbn [negb]. }
  unfold load_faq_data. rewrite Hcols.
  rewrite (bool_decide_true _ (proj2 (missing_columns_none _) Hpresent)). cbn [negb].
  rewrite bool_decide_true; [done|].
  apply filter_none, Forall_forall. intros row Hrow.
  rewrite Hrows in Hrow. apply list_elem_of_filter in Hrow as [Hcomplete _].
  rewrite any_na_complete. tauto.
Qed.

Lemma load_faq_data_idempotent_witness :
  load_faq_data (inr (dropna ["question"; "answer"] sample_table))
  = Some (dropna ["question"; "answer"] sample_table).
Proof.
  apply (load_faq_data_idempotent sample_table). vm_compute. reflexivity.
Defined.

End DataLoaderMore.

Module ChatMore.
Import Py ChatInterface ChatFacts.

Implicit Types (messages new : list message).

(** X21: a sequence of [add_message] calls only ever drops messages from
    the front: the history is a suffix of everything stored and appended.
    After at least one call it holds 20 messages at most, and as long as
    the total stays within 20 nothing is dropped. *)
Theorem history_is_suffix messages new :
  add_messages messages new `suffix_of` messages ++ new
  ∧ (new ≠ [] →
     length (add_messages messages new) = (length messages + length new) `min` 20)
  ∧ (length messages + length new ≤ 20 → add_messages messages new = messages ++ new).
Proof.
  destruct (decide (new = [])) as [->|Hnew].
  - rewrite app_nil_r. by repeat split.
  - rewrite (add_messages_last _ _ Hnew). split; [apply suffix_drop|]. split.
    + intros _. rewrite length_drop, length_app. unfold Config.MAX_HISTORY_LENGTH. lia.
    + intros Hle. rewrite length_app.
      replace (length messages + length new - Config.MAX_HISTORY_LENGTH) with 0
        by (unfold Config.MAX_HISTORY_LENGTH; lia).
      reflexivity.
Qed.

End ChatMore.

Module Main.
Import Py Eff Net DataLoader Providers.

(** [initialize_vector_store] of [app/main.py]. [read_csv] is the outcome
    of reading [FAQ_FILE]; the messages shown on failure and the caching
    of the result are left out. *)
Definition initialize_vector_store (read_csv : result DataFrame)
    (getenv : string → option string) (openai : OpenAIEmbeddings)
    : Net.M (option (VectorStore.t provider)) :=
  match load_faq_data read_csv with
  | None => mret None
  | Some df =>
      let documents := create_documents_from_faqs df in
      let vector_store := Providers.__init__ getenv openai in
      VectorStore.initialize vector_store documents ≫=
        λ r : bool * VectorStore.t provider,
          if r.1 then mret (Some r.2) else mret None
  end.

End Main.

Module MainFacts.
Import Py Eff Net DataLoader DataLoaderFacts Providers Main EmbeddingFacts VectorStoreMore.

(** X22: start-up, end to end. If the table cannot be loaded, nothing is
    built and the embedding service is never contacted. If it loads and
    the remote provider is configured, then a failing probe gives nothing
    after that single request; and with a probe that succeeds and a
    service that keeps the endpoint contract, the store that is built
    holds one document [Q: question / A: answer] for each row of the file
    that has both, in file order, each with one vector. *)
Theorem initialize_vector_store_outcomes read_csv getenv openai srv w :
  (load_faq_data read_csv = None →
   initialize_vector_store read_csv getenv openai srv w = (inr None, w))
  ∧ (∀ df c e w1,
       load_faq_data read_csv = Some df →
       VectorStore.embeddings (Providers.__init__ getenv openai) = Remote c →
       CustomLocalEmbeddings.embed_query c "Test embedding" srv w = (inl e, w1) →
       initialize_vector_store read_csv getenv openai srv w
         = (inr None, w ++ [request_of c ["Test embedding"]]))
  ∧ (∀ table df c v w1,
       read_csv = inr table →
       load_faq_data read_csv = Some df →
       VectorStore.embeddings (Providers.__init__ getenv openai) = Remote c →
       one_entry_per_input srv →
       CustomLocalEmbeddings.embed_query c "Test embedding" srv w = (inr v, w1) →
       ∃ vectors w',
         initialize_vector_store read_csv getenv openai srv w
           = (inr (Some (VectorStore.Make (Remote c)
                           (Some {| VectorStore.store :=
                                      zip (create_documents_from_faqs df) vectors |}))), w')
         ∧ length vectors = length (filter complete (rows table))
         ∧ (zip (create_documents_from_faqs df) vectors).*1
           = (λ row, "Q: " +:+ str_cell (at_col row "question") +:+ nl
                     +:+ "A: " +:+ str_cell (at_col row "answer"))
               <$> filter complete (rows table)).
Proof.
  assert (∀ c, VectorStore.embeddings (Providers.__init__ getenv openai) = Remote c →
               Providers.__init__ getenv openai = VectorStore.Make (Remote c) None) as Hinit.
  { intros c Hc. unfold Providers.__init__ in *. cbn [VectorStore.embeddings] in Hc.
    by rewrite Hc. }
  split; [|split].
  - intros Hload. unfold initialize_vector_store. by rewrite Hload.
  - intros df c e w1 Hload Hc Hprobe. unfold initialize_vector_store.
    rewrite Hload, (Hinit c Hc), run_bind, initialize_remote, Hprobe.
    destruct (embed_query_world c "Test embedding" srv w) as [r Hr].
    rewrite Hprobe in Hr. by injection Hr as _ ->.
  - intros table df c v w1 -> Hload Hc Hwf Hprobe. unfold initialize_vector_store.
    rewrite Hload, (Hinit c Hc), run_bind, initialize_remote, Hprobe.
    do 2 eexists. split; [reflexivity|].
    destruct (embed_query_world c "Test embedding" srv w) as [r Hr].
    rewrite Hprobe in Hr. injection Hr as _ ->.
    assert (length (embed_documents_outcome c (create_documents_from_faqs df) srv
                      (w ++ [request_of c ["Test embedding"]])).1
            = length (create_documents_from_faqs df)) as Hlen.
    { by destruct (embed_documents_slots c srv (w ++ [request_of c ["Test embedding"]])
                     (create_documents_from_faqs df) Hwf) as [Hlen _]. }
    pose proof (loaded_rows table df Hload) as Hrows.
    rewrite fst_zip by (by rewrite Hlen). rewrite Hlen.
    unfold create_documents_from_faqs. by rewrite Hrows, length_fmap.
Qed.

(** An environment that configures the remote provider. *)
Definition remote_env (name : string) : option string :=
  if decide (name = "EMBEDDING_BASE_URL") then Some "http://localhost:8000/v1/"
  else if decide (name = "EMBEDDING_API_KEY") then Some "secret"
  else None.

Lemma initialize_vector_store_outcomes_witness :
  ∃ vectors w',
    initialize_vector_store (inr sample_table) remote_env VectorStoreMore.bulk_limited
      flaky_server []
    = (inr (Some (VectorStore.Make (Remote sample_provider)
                    (Some {| VectorStore.store :=
                               zip (create_documents_from_faqs
                                      (dropna ["question"; "answer"] sample_table))
                                   vectors |}))), w')
    ∧ length vectors = 2.
Proof.
  destruct (initialize_vector_store_outcomes (inr sample_table) remote_env
              VectorStoreMore.bulk_limited flaky_server []) as (_ & _ & Hok).
  destruct (Hok sample_table (dropna ["question"; "answer"] sample_table) sample_provider
              [1; 2]%Q [request_of sample_provider ["Test embedding"]])
    as (vectors & w' & Hrun & Hlen & _).
  - reflexivity.
  - vm_compute. reflexivity.
  - reflexivity.
  - exact flaky_server_contract.
  - reflexivity.
  - exists vectors, w'. split; [exact Hrun|]. rewrite Hlen. vm_compute. reflexivity.
Defined.

End MainFacts.
